(** * The particle transition engine of the JIAHE Christmas tree (src/index.tsx)

    A shallow embedding of the procedural generators, the per-frame
    interpolators, the focus controller, the upload queue, the firework
    lifetime and the snow wrap of [src/index.tsx], followed by the properties
    the specification states about them.

    Numbers.  A number is a rational ([Q]) and equality of numbers is [==]
    ([Qeq]).  The snow, whose wrap depends on it, is computed as the program
    computes it: its vertex shader in binary32 and the loop that fills its
    arrays in binary64 with binary32 stores, every operation being the exact
    one followed by the rounding of the format (module [IEEE]).  Elsewhere a
    JavaScript [number] and a GLSL [float] are exact rationals: sums,
    products and quotients are the exact ones and no rounding is modelled.
    The functions of the host that have no
    rational value ([Math.cos], [Math.sqrt], ...) are the fields of the class
    [MathLib]; every result below holds for every instance.  [Math.random]
    is a stream of draws read through a cursor. *)

From Stdlib Require Import QArith Qround Qpower Qabs Lqa ZArith List String Lia Bool Arith.
Import ListNotations.

Local Open Scope Q_scope.

(** ** The host: [Math], [Math.random], [THREE] *)

(** The transcendental part of the host's [Math] object (and of GLSL's
    built-ins of the same names). *)
Class MathLib : Type := {
  Math_cos : Q -> Q;
  Math_sin : Q -> Q;
  Math_sqrt : Q -> Q;
  Math_cbrt : Q -> Q;
  Math_acos : Q -> Q;
  Math_pow : Q -> Q -> Q
}.

(** [Math.PI] is the double 0x400921FB54442D18. *)
Definition Math_PI : Q := 884279719003555 # 281474976710656.

(** [Math.pow(b, 3)] / [pow(b, 3.0)]: the cube. *)
Definition pow3 (b : Q) : Q := b ^ 3.

Module Random.

(** The values successive calls of [Math.random()] return. *)
Definition Stream : Type := nat -> Q.

(** A computation that calls [Math.random()]: it reads the stream from a
    cursor (the number of draws made so far) and returns the new cursor. *)
Definition Rand (A : Type) : Type := Stream -> nat -> A * nat.

Definition ret {A : Type} (a : A) : Rand A := fun _ c => (a, c).

Definition bind {A B : Type} (m : Rand A) (f : A -> Rand B) : Rand B :=
  fun rho c => let (a, c') := m rho c in f a rho c'.

Definition Math_random : Rand Q := fun rho c => (rho c, S c).

(** The value of a computation started on a fresh stream. *)
Definition run {A : Type} (m : Rand A) (rho : Stream) : A := fst (m rho 0%nat).

(** [for (let i = start; i < start + n; i++) s = body(i, s)]. *)
Fixpoint for_loop {S : Type} (n start : nat) (body : nat -> S -> Rand S) (s : S)
  : Rand S :=
  match n with
  | O => ret s
  | Datatypes.S n' => bind (body start s) (for_loop n' (Datatypes.S start) body)
  end.

End Random.

Notation "x <- m ;; k" := (Random.bind m (fun x => k))
  (at level 61, m at next level, right associativity).

Module THREE.

Record Vector3 : Type := Vec3 { x : Q; y : Q; z : Q }.

Module MathUtils.
(** [THREE.MathUtils.lerp(x, y, t)] is [(1 - t) * x + t * y]. *)
Definition lerp (x y t : Q) : Q := (1 - t) * x + t * y.
End MathUtils.

(** [v.lerpVectors(v1, v2, alpha)]: [v1 + (v2 - v1) * alpha], per component. *)
Definition lerpVectors (v1 v2 : Vector3) (alpha : Q) : Vector3 :=
  Vec3 (x v1 + (x v2 - x v1) * alpha)
       (y v1 + (y v2 - y v1) * alpha)
       (z v1 + (z v2 - z v1) * alpha).

End THREE.

(** A number array of fixed length, zero-filled at allocation
    ([new Float32Array(n)]). *)
Definition Float32Array (n : nat) : list Q := repeat 0 n.

(** [a[i] = v]: a store outside the array is ignored, as a typed array does. *)
Fixpoint store (i : nat) (v : Q) (a : list Q) : list Q :=
  match a, i with
  | [], _ => []
  | _ :: t, O => v :: t
  | h :: t, S j => h :: store j v t
  end.

(** [n] as a number. *)
Definition num (n : nat) : Q := inject_Z (Z.of_nat n).

(** ** Floating point *)

Module IEEE.

(** A binary floating-point format of [prec] bits of precision whose least
    unit in the last place is [2 ^ emin]: the numbers [m * 2 ^ e] with
    [|m| < 2 ^ prec] and [emin <= e].  Overflow to an infinity is not
    modelled (no number here comes near the largest of its format). *)

(** [2 ^ e]. *)
Definition pow2 (e : Z) : Q := 2 ^ e.

(** The exponent of the leading bit of a positive number. *)
Definition ilog2 (q : Q) : Z :=
  let a := (Z.log2 (Qnum q) - Z.log2 (Zpos (Qden q)))%Z in
  if Qle_bool (pow2 a) q then a else (a - 1)%Z.

(** The exponent of the unit in the last place of the numbers of the format
    around [q]. *)
Definition expo (prec emin : Z) (q : Q) : Z :=
  if Qeq_bool q 0 then emin else Z.max emin (ilog2 (Qabs q) - (prec - 1)).

(** The nearest integer, a tie going to the even one. *)
Definition rne (t : Q) : Z :=
  let f := Qfloor t in
  match Qcompare (t - inject_Z f) (1 # 2) with
  | Lt => f
  | Gt => (f + 1)%Z
  | Eq => if Z.even f then f else (f + 1)%Z
  end.

(** The nearest number of the format, a tie going to the even mantissa. *)
Definition round (prec emin : Z) (q : Q) : Q :=
  inject_Z (rne (q / pow2 (expo prec emin q))) * pow2 (expo prec emin q).

End IEEE.

(** binary32: a GLSL [highp float], an element of a [Float32Array]. *)
Module Float32.

Definition prec : Z := 24.
Definition emin : Z := (-149)%Z.

Definition round : Q -> Q := IEEE.round prec emin.

Definition add (x y : Q) : Q := round (x + y).
Definition sub (x y : Q) : Q := round (x - y).
Definition mul (x y : Q) : Q := round (x * y).
Definition div (x y : Q) : Q := round (x / y).

(** [floor] of a binary32 number is exact. *)
Definition floor (x : Q) : Q := inject_Z (Qfloor x).

End Float32.

(** binary64: a JavaScript [number]. *)
Module Float64.

Definition prec : Z := 53.
Definition emin : Z := (-1074)%Z.

Definition round : Q -> Q := IEEE.round prec emin.

Definition add (x y : Q) : Q := round (x + y).
Definition sub (x y : Q) : Q := round (x - y).
Definition mul (x y : Q) : Q := round (x * y).

End Float64.

(** ** Shaders *)

(** [easeOutCubic] of the foliage vertex shader; the ornament and photo frames
    compute the same expression inline. *)
Definition easeOutCubic (x : Q) : Q := 1 - pow3 (1 - x).

Module SnowShaderMaterial.

(** The uniform [uHeight]. *)
Definition uHeight : Q := 50.

(** GLSL [mod(x, y)] is [x - y * floor(x / y)], each operation in binary32. *)
Definition glsl_mod (x y : Q) : Q :=
  Float32.sub x (Float32.mul y (Float32.floor (Float32.div x y))).

(** GLSL [sin] and [cos]: the host's, delivered in binary32. *)
Definition glsl_sin `{MathLib} (a : Q) : Q := Float32.round (Math_sin a).
Definition glsl_cos `{MathLib} (a : Q) : Q := Float32.round (Math_cos a).

(** The vertex shader's [pos] for a particle at [position] with the
    attribute [aRandom] (x = speed, y = offset, z = sway); the uniforms and
    the attributes are binary32 numbers. *)
Definition vertexShader `{MathLib} (uTime uHeight : Q)
    (position aRandom : THREE.Vector3) : THREE.Vector3 :=
  let fall := Float32.mul uTime (Float32.add 2 (Float32.mul (THREE.x aRandom) 3)) in
  let pos_y := Float32.sub (glsl_mod (Float32.sub (THREE.y position) fall) uHeight)
                           (Float32.mul uHeight (1 # 2)) in
  let pos_x := Float32.add (THREE.x position)
                 (Float32.mul (glsl_sin (Float32.add uTime (THREE.y aRandom)))
                              (THREE.z aRandom)) in
  let pos_z := Float32.add (THREE.z position)
                 (Float32.mul (glsl_cos (Float32.add uTime (THREE.y aRandom)))
                              (THREE.z aRandom)) in
  THREE.Vec3 pos_x pos_y pos_z.

End SnowShaderMaterial.

(** ** Data generation *)

Record FoliageData : Type := {
  positionsTree : list Q;
  positionsScatter : list Q;
  randoms : list Q
}.

(** The height coordinate the loop of [generateFoliageData] gives particle [i]. *)
Definition foliageTreeY (count i : nat) : Q :=
  let t := num i / num count in
  let height := 20 in
  t * height - height / 2.

(** One iteration of the loop of [generateFoliageData]. *)
Definition generateFoliageData_body `{MathLib} (count i : nat) (d : FoliageData)
  : Random.Rand FoliageData :=
  let t := num i / num count in
  let angle := t * 250 in
  let y := foliageTreeY count i in
  let maxRadius := (1 - Math_pow t (9 # 10)) * (85 # 10) in
  u1 <- Random.Math_random ;;
  let radiusStrata := (2 # 10) + (8 # 10) * Math_sqrt u1 in
  let r := maxRadius * radiusStrata in
  let xTree := Math_cos angle * r in
  let zTree := Math_sin angle * r in
  let pT := store (i * 3 + 2) zTree
              (store (i * 3 + 1) y (store (i * 3) xTree (positionsTree d))) in
  u2 <- Random.Math_random ;;
  let rScatter := 40 * Math_cbrt u2 in
  u3 <- Random.Math_random ;;
  let theta := u3 * 2 * Math_PI in
  u4 <- Random.Math_random ;;
  let phi := Math_acos (2 * u4 - 1) in
  let pS := store (i * 3 + 2) (rScatter * Math_cos phi)
              (store (i * 3 + 1) (rScatter * Math_sin phi * Math_sin theta)
                 (store (i * 3) (rScatter * Math_sin phi * Math_cos theta)
                    (positionsScatter d))) in
  u5 <- Random.Math_random ;;
  Random.ret {| positionsTree := pT;
                positionsScatter := pS;
                randoms := store i u5 (randoms d) |}.

Definition generateFoliageData `{MathLib} (count : nat) : Random.Rand FoliageData :=
  Random.for_loop count 0 (generateFoliageData_body count)
    {| positionsTree := Float32Array (count * 3);
       positionsScatter := Float32Array (count * 3);
       randoms := Float32Array count |}.

(** ** Components *)

Module FireworkInstance.

(** What a mounted burst holds: [startTime] is [Date.now()] (milliseconds) at
    its first render, [visible] the flag of its [THREE.Points] (true for a
    new object), [uTime] the uniform of its material. *)
Record t : Type := {
  startTime : Z;
  visible : bool;
  uTime : Q
}.

Definition mount (now : Z) : t :=
  {| startTime := now; visible := true; uTime := 0 |}.

(** [(Date.now() - startTime) / 1500]. *)
Definition age (now : Z) (fw : t) : Q := inject_Z (now - startTime fw) / 1500.

(** The frame callback, run with [Date.now() = now]. *)
Definition useFrame (now : Z) (fw : t) : t :=
  let age := age now fw in
  {| startTime := startTime fw;
     visible := if Qlt_le_dec 1 age then false else visible fw;
     uTime := age |}.

(** The frames rendered at the times [nows], in order. *)
Definition frames (nows : list Z) (fw : t) : t :=
  fold_left (fun s now => useFrame now s) nows fw.

End FireworkInstance.

Module FoliageSystem.

Definition count : nat := (64 * 1000)%nat.

(** The uniforms the frame callback writes. *)
Record t : Type := { uTime : Q; uProgress : Q }.

Definition init : t := {| uTime := 0; uProgress := 0 |}.

Definition useFrame (elapsedTime mode : Q) (s : t) : t :=
  {| uTime := elapsedTime;
     uProgress := THREE.MathUtils.lerp (uProgress s) mode (2 # 100) |}.

(** The first [n] frames, frame [i] rendered at elapsed time [clock i],
    with [mode] held constant. *)
Fixpoint frames (clock : nat -> Q) (mode : Q) (n : nat) (s : t) : t :=
  match n with
  | O => s
  | S n' => useFrame (clock n') mode (frames clock mode n' s)
  end.

End FoliageSystem.

Module OrnamentSystem.

Definition count : nat := 400.

Inductive Kind : Type := BOX | SPHERE.

Record Item : Type := {
  treePos : THREE.Vector3;
  scatterPos : THREE.Vector3;
  scale : Q;
  type : Kind;
  rotationSpeed : Q
}.

(** The tree position the loop computes from its first two draws. *)
Definition treePosOf `{MathLib} (t a : Q) : THREE.Vector3 :=
  let height := 18 in
  let yTree := t * height - height / 2 in
  let r := (1 - t) * 8 in
  let angle := a * Math_PI * 2 in
  THREE.Vec3 (Math_cos angle * r) yTree (Math_sin angle * r).

(** One iteration of the loop that fills [data]. *)
Definition data_body `{MathLib} (i : nat) (d : list Item) : Random.Rand (list Item) :=
  t <- Random.Math_random ;;
  a <- Random.Math_random ;;
  sx <- Random.Math_random ;;
  sy <- Random.Math_random ;;
  sz <- Random.Math_random ;;
  sc <- Random.Math_random ;;
  ty <- Random.Math_random ;;
  rs <- Random.Math_random ;;
  Random.ret (d ++ [ {| treePos := treePosOf t a;
                        scatterPos := THREE.Vec3 ((sx - (1 # 2)) * 40)
                                                 ((sy - (1 # 2)) * 40)
                                                 ((sz - (1 # 2)) * 40);
                        scale := sc * (4 # 10) + (2 # 10);
                        type := if Qlt_le_dec (6 # 10) ty then BOX else SPHERE;
                        rotationSpeed := rs * (2 # 100) |} ]).

Definition data `{MathLib} : Random.Rand (list Item) :=
  Random.for_loop count 0 data_body [].

(** The frame callback: the smoothed progress, and the blended position of
    each item (the instance matrices are built from these). *)
Definition useFrame (mode : Q) (d : list Item) (currentProgress : Q)
  : Q * list THREE.Vector3 :=
  let currentProgress' := THREE.MathUtils.lerp currentProgress mode (4 # 100) in
  let t := 1 - pow3 (1 - currentProgress') in
  (currentProgress',
   map (fun item => THREE.lerpVectors (scatterPos item) (treePos item) t) d).

End OrnamentSystem.

Module Polaroid.

(** The frame callback of a mounted photo: the smoothed progress and the
    base position [basePos] between scatter and tree. *)
Definition useFrame (mode : Q) (treePos scatterPos : THREE.Vector3)
    (currentProgress : Q) : Q * THREE.Vector3 :=
  let currentProgress' := THREE.MathUtils.lerp currentProgress mode (3 # 100) in
  let t := 1 - pow3 (1 - currentProgress') in
  (currentProgress', THREE.lerpVectors scatterPos treePos t).

End Polaroid.

(** A JavaScript value of the photo bindings. *)
Inductive JsValue : Type :=
| JsNull
| JsUndefined
| JsString (s : string).

Definition truthy (v : JsValue) : bool :=
  match v with
  | JsString EmptyString => false
  | JsString _ => true
  | _ => false
  end.

(** A texture handed to a [Polaroid]: one loaded from a URL, or the built-in
    placeholder of [createPlaceholderTexture]. *)
Inductive Texture : Type :=
| Loaded (url : string)
| Placeholder.

(** The operations of the binding expression that can go wrong, as they are
    evaluated. *)
Inductive Op : Type :=
| OpRemainder (a b : nat)
| OpIndex (len : nat) (k : option nat).

Module PhotoSystem.

Record Slot : Type := {
  treePos : THREE.Vector3;
  scatterPos : THREE.Vector3
}.

Definition count : nat := 9.

(** The tree position of slot [i]. *)
Definition slotTreePos `{MathLib} (i : nat) : THREE.Vector3 :=
  let t := num i / num (count - 1) in
  let h := 14 in
  let y := t * h - h / 2 + 2 in
  let r := (1 - t * (8 # 10)) * (85 # 10) in
  let angle := t * Math_PI * 4 + num i * (5 # 10) in
  THREE.Vec3 (Math_cos angle * r) y (Math_sin angle * r).

Definition slots_body `{MathLib} (i : nat) (arr : list Slot) : Random.Rand (list Slot) :=
  sx <- Random.Math_random ;;
  sy <- Random.Math_random ;;
  sz <- Random.Math_random ;;
  Random.ret (arr ++ [ {| treePos := slotTreePos i;
                          scatterPos := THREE.Vec3 ((sx - (1 # 2)) * 50)
                                                   ((sy - (1 # 2)) * 30)
                                                   (20 + sz * 10) |} ]).

Definition slots `{MathLib} : Random.Rand (list Slot) :=
  Random.for_loop count 0 slots_body [].

(** [a % b] on array indices: [NaN] ([None]) when [b] is 0. *)
Definition remainder (a b : nat) : option nat :=
  match b with
  | O => None
  | _ => Some (a mod b)%nat
  end.

(** [arr[k]]: [undefined] outside the array and at [NaN]. *)
Definition index (arr : list string) (k : option nat) : JsValue :=
  match k with
  | Some n => match nth_error arr n with
              | Some s => JsString s
              | None => JsUndefined
              end
  | None => JsUndefined
  end.

(** [userPhotos.length > 0 ? userPhotos[i % userPhotos.length] : null],
    with the remainder and index operations it evaluates. *)
Definition photoUrl (userPhotos : list string) (i : nat) : JsValue * list Op :=
  let len := List.length userPhotos in
  if (0 <? len)%nat
  then let k := remainder i len in
       (index userPhotos k, [OpRemainder i len; OpIndex len k])
  else (JsNull, []).

(** [focusedIdx === i]. *)
Definition isFocusedAt (focusedIdx : option nat) (i : nat) : bool :=
  match focusedIdx with
  | Some j => (j =? i)%nat
  | None => false
  end.

(** The props of the [PhotoWrapper] rendered for a slot. *)
Record Props : Type := {
  slot : Slot;
  index_ : nat;
  photoUrl_ : JsValue;
  isFocused : bool
}.

(** [slots.map((slot, i) => ...)], from index [i] on. *)
Fixpoint render_from (i : nat) (slots : list Slot) (userPhotos : list string)
    (focusedIdx : option nat) : list Props * list Op :=
  match slots with
  | [] => ([], [])
  | s :: rest =>
      let (url, ops) := photoUrl userPhotos i in
      let (ps, ops') := render_from (S i) rest userPhotos focusedIdx in
      ({| slot := s; index_ := i; photoUrl_ := url;
          isFocused := isFocusedAt focusedIdx i |} :: ps, ops ++ ops')
  end.

Definition render (slots : list Slot) (userPhotos : list string)
    (focusedIdx : option nat) : list Props * list Op :=
  render_from 0 slots userPhotos focusedIdx.

End PhotoSystem.

Module PhotoWrapper.

(** The 1x1 GIF loaded when there is no photo URL. *)
Definition blankGif : string :=
  "data:image/gif;base64,R0lGODlhAQABAIAAAAAAAP///yH5BAEAAAAALAAAAAABAAEAAAIBRAA7".

(** [photoUrl || blankGif]. *)
Definition loaderUrl (photoUrl : JsValue) : string :=
  match photoUrl with
  | JsString s => if truthy photoUrl then s else blankGif
  | _ => blankGif
  end.

(** [photoUrl ? tex : defaultTexture], with [tex] the texture of [loaderUrl]. *)
Definition activeTexture (photoUrl : JsValue) : Texture :=
  if truthy photoUrl then Loaded (loaderUrl photoUrl) else Placeholder.

End PhotoWrapper.

Module Experience.

Record t : Type := {
  focusedIdx : option nat;
  fireworksActive : bool
}.

Definition init : t := {| focusedIdx := None; fireworksActive := false |}.

Definition handlePhotoClick (idx : nat) (s : t) : t :=
  if PhotoSystem.isFocusedAt (focusedIdx s) idx
  then {| focusedIdx := None; fireworksActive := fireworksActive s |}
  else {| focusedIdx := Some idx; fireworksActive := true |}.

(** Click on the background catcher. *)
Definition handleMissed (s : t) : t :=
  {| focusedIdx := None; fireworksActive := fireworksActive s |}.

(** The timer set by a focusing click fires. *)
Definition resetTrigger (s : t) : t :=
  {| focusedIdx := focusedIdx s; fireworksActive := false |}.

Inductive Event : Type :=
| Click (idx : nat)
| Missed
| TimerFired.

Definition step (s : t) (e : Event) : t :=
  match e with
  | Click idx => handlePhotoClick idx s
  | Missed => handleMissed s
  | TimerFired => resetTrigger s
  end.

Definition run (es : list Event) (s : t) : t := fold_left step es s.

End Experience.

Module App.

Record t : Type := {
  mode : Z;
  userPhotos : list string
}.

Definition init : t := {| mode := 0; userPhotos := [] |}.

(** [arr.slice(-n)]: the last [n] elements, all of them when there are fewer. *)
Definition slice_last {A : Type} (n : nat) (arr : list A) : list A :=
  skipn (List.length arr - n) arr.

(** [handleUpload], with [files] the input's [e.target.files] and
    [processImageFile] the image reference each file resolves to. *)
Definition handleUpload {File : Type} (processImageFile : File -> string)
    (files : option (list File)) (s : t) : t :=
  match files with
  | Some ((_ :: _) as fs) =>
      let results := map processImageFile fs in
      {| mode := if (mode s =? 0)%Z then 1%Z else mode s;
         userPhotos := slice_last 9 (userPhotos s ++ results) |}
  | _ => s
  end.

(** The mode button. *)
Definition toggleMode (s : t) : t :=
  {| mode := if (mode s =? 0)%Z then 1%Z else 0%Z; userPhotos := userPhotos s |}.

End App.

(** ** Auxiliary definitions of the development *)

(** A stand-in instance of the host's functions (constant trigonometry), used
    only to evaluate the generators on concrete inputs. *)
Definition constantMath : MathLib :=
  {| Math_cos := fun _ => 1;
     Math_sin := fun _ => 0;
     Math_sqrt := fun a => a;
     Math_cbrt := fun a => a;
     Math_acos := fun _ => 0;
     Math_pow := fun a _ => a |}.

(** The loop invariant of [generateFoliageData]: the arrays keep their
    allocated length, and the particles written so far have their height. *)
Definition foliage_invariant (count k : nat) (d : FoliageData) : Prop :=
  List.length (positionsTree d) = (count * 3)%nat
  /\ List.length (positionsScatter d) = (count * 3)%nat
  /\ forall j, (j < k)%nat -> nth (j * 3 + 1) (positionsTree d) 0 = foliageTreeY count j.

(** The ornament built from the eight draws that start at cursor [c]. *)
Definition ornamentItem `{MathLib} (rho : Random.Stream) (c : nat) : OrnamentSystem.Item :=
  {| OrnamentSystem.treePos := OrnamentSystem.treePosOf (rho c) (rho (1 + c)%nat);
     OrnamentSystem.scatterPos :=
       THREE.Vec3 ((rho (2 + c)%nat - (1 # 2)) * 40)
                  ((rho (3 + c)%nat - (1 # 2)) * 40)
                  ((rho (4 + c)%nat - (1 # 2)) * 40);
     OrnamentSystem.scale := rho (5 + c)%nat * (4 # 10) + (2 # 10);
     OrnamentSystem.type :=
       if Qlt_le_dec (6 # 10) (rho (6 + c)%nat)
       then OrnamentSystem.BOX else OrnamentSystem.SPHERE;
     OrnamentSystem.rotationSpeed := rho (7 + c)%nat * (2 # 100) |}.

(** The photo slot [i] built from the three draws that start at cursor [c]. *)
Definition photoSlot `{MathLib} (i : nat) (rho : Random.Stream) (c : nat) : PhotoSystem.Slot :=
  {| PhotoSystem.treePos := PhotoSystem.slotTreePos i;
     PhotoSystem.scatterPos :=
       THREE.Vec3 ((rho c - (1 # 2)) * 50)
                  ((rho (1 + c)%nat - (1 # 2)) * 30)
                  (20 + rho (2 + c)%nat * 10) |}.

(** The slots a render marks as focused. *)
Definition focusedSlots (ps : list PhotoSystem.Props) : list PhotoSystem.Props :=
  filter PhotoSystem.isFocused ps.

(** One upload per batch of files, in order. *)
Definition uploads {File : Type} (processImageFile : File -> string)
    (batches : list (list File)) (s : App.t) : App.t :=
  fold_left (fun s batch => App.handleUpload processImageFile (Some batch) s) batches s.

(** ** Further parts of the source *)

Module ImageFile.

(** [maxSize] of [processImageFile]. *)
Definition maxSize : Q := 2048.

(** The [width] and [height] that [processImageFile] draws an image of
    [imgWidth] x [imgHeight] pixels at. *)
Definition bakedSize (imgWidth imgHeight : nat) : Q * Q :=
  let width := num imgWidth in
  let height := num imgHeight in
  if Qlt_le_dec height width
  then if Qlt_le_dec maxSize width
       then (maxSize, height * (maxSize / width))
       else (width, height)
  else if Qlt_le_dec maxSize height
       then (width * (maxSize / height), maxSize)
       else (width, height).

(** [canvas.width = width; canvas.height = height]: a canvas dimension is an
    integer, the number truncated. *)
Definition canvasSize (imgWidth imgHeight : nat) : Z * Z :=
  let (width, height) := bakedSize imgWidth imgHeight in
  (Qfloor width, Qfloor height).

End ImageFile.

Module FoliageShaderMaterial.

(** GLSL [mix(x, y, a)] is [x * (1 - a) + y * a]. *)
Definition mix (x y a : Q) : Q := x * (1 - a) + y * a.

Definition mix3 (v1 v2 : THREE.Vector3) (a : Q) : THREE.Vector3 :=
  THREE.Vec3 (mix (THREE.x v1) (THREE.x v2) a)
             (mix (THREE.y v1) (THREE.y v2) a)
             (mix (THREE.z v1) (THREE.z v2) a).

(** What the vertex shader computes before the camera transform: the
    position, the varyings, and the point size before its division by the
    view depth. *)
Record Vertex : Type := {
  pos : THREE.Vector3;
  vAlpha : Q;
  vType : Q;
  size : Q
}.

Definition vertexShader `{MathLib} (uTime uProgress : Q)
    (aPosTree aPosScatter : THREE.Vector3) (aRandom : Q) : Vertex :=
  let t := easeOutCubic uProgress in
  let pos0 := mix3 aPosScatter aPosTree t in
  let wind := Math_sin (uTime * (15 # 10) + THREE.y pos0 * (5 # 10) + THREE.x pos0)
              * (8 # 100) in
  let pos1 := THREE.Vec3 (THREE.x pos0 + wind * (1 - t * (6 # 10)))
                         (THREE.y pos0) (THREE.z pos0) in
  let vType := if Qlt_le_dec (95 # 100) aRandom then 2
               else if Qlt_le_dec (5 # 10) aRandom then 1
               else 0 in
  let sizeBase := if Qeq_bool vType 2 then 300 else 225 in
  {| pos := pos1;
     vAlpha := (8 # 10) + (2 # 10) * Math_sin (uTime * 2 + aRandom * 100);
     vType := vType;
     size := sizeBase * ((8 # 10) + (4 # 10) * aRandom) |}.

(** The colour the fragment shader starts from. *)
Inductive Colour : Type :=
| uColorGold
| mixBaseTip
| uColorBase.

Definition fragmentColour (vType : Q) : Colour :=
  if Qlt_le_dec (15 # 10) vType then uColorGold
  else if Qlt_le_dec (5 # 10) vType then mixBaseTip
  else uColorBase.

End FoliageShaderMaterial.

Module FireworkShaderMaterial.

(** The vertex shader before the camera transform: the position, and the
    point size before its division by the view depth. *)
Definition vertexShader (uTime : Q) (position aVelocity : THREE.Vector3)
  : THREE.Vector3 * Q :=
  let px := THREE.x position + THREE.x aVelocity * uTime * 15 in
  let py := THREE.y position + THREE.y aVelocity * uTime * 15 in
  let pz := THREE.z position + THREE.z aVelocity * uTime * 15 in
  (THREE.Vec3 px (py - 2 * uTime * uTime) pz, 200 * (1 - uTime)).

End FireworkShaderMaterial.

Module Fireworks.

(** An entry of [explosions]; [hue] is the first argument of [setHSL]. *)
Record Explosion : Type := {
  id : nat;
  hue : Q;
  position : THREE.Vector3
}.

(** One iteration of the launch loop, on [(newExps, idRef.current)]. *)
Definition launch_body (i : nat) (st : list Explosion * nat)
  : Random.Rand (list Explosion * nat) :=
  let (newExps, idRef) := st in
  h <- Random.Math_random ;;
  px <- Random.Math_random ;;
  py <- Random.Math_random ;;
  pz <- Random.Math_random ;;
  Random.ret (newExps ++ [ {| id := idRef;
                              hue := h;
                              position := THREE.Vec3 ((px - (1 # 2)) * 20)
                                                     (5 + py * 10)
                                                     ((pz - (1 # 2)) * 10) |} ],
              S idRef).

(** The component: its state [explosions], the counter [idRef], the value of
    [active] the effect last ran with, and whether the timeout of that run is
    pending. *)
Record t : Type := {
  explosions : list Explosion;
  idRef : nat;
  active : bool;
  pendingClear : bool
}.

(** The effect body, run with [active = a]. *)
Definition effect (a : bool) (s : t) : Random.Rand t :=
  if a
  then st <- Random.for_loop 3 0 launch_body ([], idRef s) ;;
       Random.ret {| explosions := fst st; idRef := snd st;
                     active := a; pendingClear := true |}
  else Random.ret {| explosions := explosions s; idRef := idRef s;
                     active := a; pendingClear := pendingClear s |}.

(** The cleanup the last effect run returned: [clearTimeout(t)] when it ran
    with [active] true, nothing otherwise. *)
Definition cleanup (s : t) : t :=
  if active s
  then {| explosions := explosions s; idRef := idRef s;
          active := active s; pendingClear := false |}
  else s.

Definition mount (a : bool) : Random.Rand t :=
  effect a {| explosions := []; idRef := 0; active := a; pendingClear := false |}.

(** A render with the prop [active = a]: the effect depends on [active]
    alone, so it is cleaned up and run again only when [a] has changed. *)
Definition render (a : bool) (s : t) : Random.Rand t :=
  if Bool.eqb a (active s) then Random.ret s else effect a (cleanup s).

(** The pending timeout fires: [setExplosions([])]. *)
Definition timeout (s : t) : t :=
  if pendingClear s
  then {| explosions := []; idRef := idRef s;
          active := active s; pendingClear := false |}
  else s.

Inductive Event : Type :=
| Render (a : bool)
| Timeout.

Definition step (s : t) (e : Event) : Random.Rand t :=
  match e with
  | Render a => render a s
  | Timeout => Random.ret (timeout s)
  end.

Fixpoint run (es : list Event) (s : t) : Random.Rand t :=
  match es with
  | [] => Random.ret s
  | e :: es' => s' <- step s e ;; run es' s'
  end.

End Fireworks.

Module FireworksScene.

(** [Fireworks] together with the [FireworkInstance]s React keeps mounted
    for it: one for each entry of [explosions], under the entry's [id] as
    [key]. *)
Record t : Type := {
  launcher : Fireworks.t;
  mounted : list (nat * FireworkInstance.t)
}.

Fixpoint lookup (key : nat) (l : list (nat * FireworkInstance.t))
  : option FireworkInstance.t :=
  match l with
  | [] => None
  | (k, fw) :: l' => if (k =? key)%nat then Some fw else lookup key l'
  end.

(** The children after a render at [Date.now() = now]: an entry whose key was
    mounted keeps its instance and its state, an entry with a new key is
    mounted, and what was mounted under a key that is gone is unmounted. *)
Definition reconcile (now : Z) (exps : list Fireworks.Explosion)
    (old : list (nat * FireworkInstance.t)) : list (nat * FireworkInstance.t) :=
  map (fun e => (Fireworks.id e,
                 match lookup (Fireworks.id e) old with
                 | Some fw => fw
                 | None => FireworkInstance.mount now
                 end)) exps.

Definition commit (now : Z) (l : Fireworks.t) (s : t) : t :=
  {| launcher := l; mounted := reconcile now (Fireworks.explosions l) (mounted s) |}.

(** What happens to the scene: the parent renders [Fireworks] with
    [active = a], the pending timeout fires, or a frame is rendered. *)
Inductive Event : Type :=
| Render (a : bool)
| Timeout
| Frame.

(** An event at [Date.now() = now]. *)
Definition step (s : t) (ev : Z * Event) : Random.Rand t :=
  match snd ev with
  | Render a =>
      l <- Fireworks.render a (launcher s) ;; Random.ret (commit (fst ev) l s)
  | Timeout => Random.ret (commit (fst ev) (Fireworks.timeout (launcher s)) s)
  | Frame =>
      Random.ret {| launcher := launcher s;
                    mounted := map (fun kf => (fst kf,
                                               FireworkInstance.useFrame (fst ev) (snd kf)))
                                   (mounted s) |}
  end.

Fixpoint run (evs : list (Z * Event)) (s : t) : Random.Rand t :=
  match evs with
  | [] => Random.ret s
  | ev :: evs' => s' <- step s ev ;; run evs' s'
  end.

Definition mount (now : Z) (a : bool) : Random.Rand t :=
  l <- Fireworks.mount a ;;
  Random.ret (commit now l {| launcher := l; mounted := [] |}).

(** The times of the frames among some events. *)
Fixpoint frameTimes (evs : list (Z * Event)) : list Z :=
  match evs with
  | [] => []
  | (now, Frame) :: evs' => now :: frameTimes evs'
  | _ :: evs' => frameTimes evs'
  end.

(** Whether the burst of key [key] is on screen: mounted, with its [visible]
    flag set. *)
Definition drawn (key : nat) (s : t) : bool :=
  match lookup key (mounted s) with
  | Some fw => FireworkInstance.visible fw
  | None => false
  end.

(** The mounted instances mirror [explosions], and every key is below the
    counter. *)
Definition consistent (s : t) : Prop :=
  map fst (mounted s) = map Fireworks.id (Fireworks.explosions (launcher s))
  /\ Forall (fun k => (k < Fireworks.idRef (launcher s))%nat) (map fst (mounted s)).

End FireworksScene.

Module OrnamentInstances.

(** The [setMatrixAt] calls of one frame: for each mesh the instance indices
    written, each with the index of the item whose matrix is written, and the
    counters [b] and [s]. *)
Record Writes : Type := {
  box : list (nat * nat);
  sphere : list (nat * nat);
  b : nat;
  s : nat
}.

(** The callback of [data.forEach], both meshes being mounted. *)
Definition forEach_body (item : OrnamentSystem.Item) (i : nat) (w : Writes) : Writes :=
  match OrnamentSystem.type item with
  | OrnamentSystem.BOX =>
      {| box := box w ++ [(b w, i)]; sphere := sphere w; b := S (b w); s := s w |}
  | OrnamentSystem.SPHERE =>
      {| box := box w; sphere := sphere w ++ [(s w, i)]; b := b w; s := S (s w) |}
  end.

Fixpoint forEach_from (i : nat) (d : list OrnamentSystem.Item) (w : Writes) : Writes :=
  match d with
  | [] => w
  | item :: rest => forEach_from (S i) rest (forEach_body item i w)
  end.

Definition forEach (d : list OrnamentSystem.Item) : Writes :=
  forEach_from 0 d {| box := []; sphere := []; b := 0; s := 0 |}.

End OrnamentInstances.

Module PolaroidGroup.

(** The position and the scale of the group of a photo (its rotation is not
    part of this record). *)
Record t : Type := {
  position : THREE.Vector3;
  scale : THREE.Vector3
}.

(** A new [THREE.Group]. *)
Definition init : t :=
  {| position := THREE.Vec3 0 0 0; scale := THREE.Vec3 1 1 1 |}.

(** [v.lerp(target, alpha)]: [v += (target - v) * alpha], per component. *)
Definition lerp (v target : THREE.Vector3) (alpha : Q) : THREE.Vector3 :=
  THREE.Vec3 (THREE.x v + (THREE.x target - THREE.x v) * alpha)
             (THREE.y v + (THREE.y target - THREE.y v) * alpha)
             (THREE.z v + (THREE.z target - THREE.z v) * alpha).

Definition multiplyScalar (v : THREE.Vector3) (k : Q) : THREE.Vector3 :=
  THREE.Vec3 (THREE.x v * k) (THREE.y v * k) (THREE.z v * k).

(** What the frame callback of [Polaroid] does to the position and the scale
    of its group; [basePos] is the blended position of [Polaroid.useFrame],
    [hover] the value of [hoverRef]. *)
Definition useFrame `{MathLib} (elapsedTime : Q) (index : nat) (isFocused hover : bool)
    (basePos : THREE.Vector3) (g : t) : t :=
  let floatY := Math_sin (elapsedTime + num index) * (1 # 10) in
  if isFocused
  then let targetPos := THREE.Vec3 0 5 20 in
       let targetScale := 35 # 10 in
       {| position := lerp (position g) targetPos (1 # 10);
          scale := lerp (scale g) (THREE.Vec3 targetScale targetScale targetScale)
                     (1 # 10) |}
  else let sc := lerp (scale g) (THREE.Vec3 1 1 1) (1 # 10) in
       {| position := THREE.Vec3 (THREE.x basePos) (THREE.y basePos + floatY)
                                 (THREE.z basePos);
          scale := if hover then multiplyScalar sc (11 # 10) else sc |}.

End PolaroidGroup.

Module Snow.

Definition count : nat := 2000.

(** One iteration of the loop that fills [pos] and [rnd].  The expressions
    are JavaScript's, in binary64; a store into a [Float32Array] rounds to
    binary32. *)
Definition body (i : nat) (st : list Q * list Q) : Random.Rand (list Q * list Q) :=
  let (pos, rnd) := st in
  px <- Random.Math_random ;;
  let pos := store (i * 3)
               (Float32.round (Float64.mul (Float64.sub px (1 # 2)) 60)) pos in
  py <- Random.Math_random ;;
  let pos := store (i * 3 + 1)
               (Float32.round (Float64.mul (Float64.sub py (1 # 2)) 50)) pos in
  pz <- Random.Math_random ;;
  let pos := store (i * 3 + 2)
               (Float32.round (Float64.mul (Float64.sub pz (1 # 2)) 60)) pos in
  speed <- Random.Math_random ;;
  let rnd := store (i * 3) (Float32.round speed) rnd in
  offset <- Random.Math_random ;;
  let rnd := store (i * 3 + 1) (Float32.round (Float64.mul offset 100)) rnd in
  sway <- Random.Math_random ;;
  let rnd := store (i * 3 + 2) (Float32.round (Float64.mul sway (1 # 2))) rnd in
  Random.ret (pos, rnd).



(** The frame callback: [uniforms.uTime.value = state.clock.elapsedTime], a
    uniform the shader receives in binary32. *)
Definition useFrame (elapsedTime : Q) : Q := Float32.round elapsedTime.

End Snow.

Module AppEvents.

(** What the user does to [App]: the mode button, or a change of the file
    input. *)
Inductive Event (File : Type) : Type :=
| Toggle
| Upload (files : option (list File)).

Arguments Toggle {File}.
Arguments Upload {File} files.

Definition step {File : Type} (processImageFile : File -> string)
    (s : App.t) (e : Event File) : App.t :=
  match e with
  | Toggle => App.toggleMode s
  | Upload files => App.handleUpload processImageFile files s
  end.

Definition run {File : Type} (processImageFile : File -> string)
    (es : list (Event File)) (s : App.t) : App.t :=
  fold_left (step processImageFile) es s.

End AppEvents.

(** * Properties *)

(** ** The ease-out curve *)

Lemma easeOutCubic_eq x : easeOutCubic x == 1 - (1 - x) * (1 - x) * (1 - x).
Proof. unfold easeOutCubic, pow3. ring. Qed.

Lemma cube_difference a b : a ^ 3 - b ^ 3 == (a - b) * (a * a + a * b + b * b).
Proof. ring. Qed.

Lemma easeOutCubic_monotone x y :
  0 <= x -> x <= y -> y <= 1 -> easeOutCubic x <= easeOutCubic y.
Proof.
  unfold easeOutCubic, pow3. intros Hx Hxy Hy.
  assert (H : 0 <= (1 - x) ^ 3 - (1 - y) ^ 3).
  { rewrite cube_difference. apply Qmult_le_0_compat; [lra | nra]. }
  lra.
Qed.

Lemma easeOutCubic_above x : 0 < x -> x < 1 -> x < easeOutCubic x.
Proof.
  intros H0 H1.
  assert (E : easeOutCubic x - x == x * ((1 - x) * (2 - x)))
    by (unfold easeOutCubic, pow3; ring).
  assert (0 < x * ((1 - x) * (2 - x))).
  { apply Qmult_lt_0_compat; [lra |]. apply Qmult_lt_0_compat; lra. }
  lra.
Qed.

(** C2.  The cubic ease-out [ease(x) = 1 - (1 - x)^3] takes 0 to 0 and 1 to 1,
    is non-decreasing on [0, 1], and lies strictly above the identity on the
    open interval (0, 1). *)
Theorem easeOutCubic_ease_out :
  (forall x, easeOutCubic x == 1 - (1 - x) ^ 3) /\
  easeOutCubic 0 == 0 /\
  easeOutCubic 1 == 1 /\
  (forall x y, 0 <= x -> x <= y -> y <= 1 -> easeOutCubic x <= easeOutCubic y) /\
  (forall x, 0 < x -> x < 1 -> x < easeOutCubic x).
Proof.
  split; [intro x; reflexivity |].
  split; [reflexivity |].
  split; [reflexivity |].
  split.
  - exact easeOutCubic_monotone.
  - exact easeOutCubic_above.
Qed.

Lemma easeOutCubic_ease_out_witness :
  easeOutCubic (1 # 4) <= easeOutCubic (1 # 2) /\ (1 # 2) < easeOutCubic (1 # 2).
Proof.
  destruct easeOutCubic_ease_out as (_ & _ & _ & Hmono & Habove).
  split.
  - apply Hmono; discriminate.
  - apply Habove; reflexivity.
Defined.

(** ** The transition interpolator *)

Lemma lerp_update p m k : THREE.MathUtils.lerp p m k == p + (m - p) * k.
Proof. unfold THREE.MathUtils.lerp. ring. Qed.

#[local] Instance lerp_proper :
  Proper (Qeq ==> Qeq ==> Qeq ==> Qeq) THREE.MathUtils.lerp.
Proof.
  intros p p' Hp m m' Hm k k' Hk. unfold THREE.MathUtils.lerp.
  rewrite Hp, Hm, Hk. reflexivity.
Qed.

Lemma Qpower_succ (a : Q) (n : nat) :
  a ^ Z.of_nat (S n) == a * a ^ Z.of_nat n.
Proof.
  rewrite Nat2Z.inj_succ, <- Z.add_1_l.
  rewrite Qpower_plus' by lia.
  reflexivity.
Qed.

(** From 0 towards 1 with smoothing [k], [n] steps reach [1 - (1 - k)^n]. *)
Lemma lerp_iter_closed_form (k : Q) (n : nat) :
  Nat.iter n (fun p => THREE.MathUtils.lerp p 1 k) 0 == 1 - (1 - k) ^ Z.of_nat n.
Proof.
  induction n as [| n IH].
  - reflexivity.
  - rewrite Nat.iter_succ, IH, Qpower_succ.
    unfold THREE.MathUtils.lerp. ring.
Qed.

Lemma foliage_frames_progress clock mode n s :
  FoliageSystem.uProgress (FoliageSystem.frames clock mode n s)
  = Nat.iter n (fun p => THREE.MathUtils.lerp p mode (2 # 100))
      (FoliageSystem.uProgress s).
Proof.
  induction n as [| n IH]; [reflexivity |].
  rewrite Nat.iter_succ, <- IH. reflexivity.
Qed.

(** C3.  Every group advances its progress by
    [progress + (targetMode - progress) * k], with k = 0.02 for the foliage,
    0.04 for the ornaments and 0.03 for the photos.  From progress 0 with the
    target held at 1, [n] frames give [1 - (1 - k)^n]; for the foliage, 100
    frames give 0.867 to three decimals. *)
Theorem interpolator_convergence :
  (forall time mode s,
     FoliageSystem.uProgress (FoliageSystem.useFrame time mode s)
     == FoliageSystem.uProgress s + (mode - FoliageSystem.uProgress s) * (2 # 100)) /\
  (forall mode d p,
     fst (OrnamentSystem.useFrame mode d p) == p + (mode - p) * (4 # 100)) /\
  (forall mode treePos scatterPos p,
     fst (Polaroid.useFrame mode treePos scatterPos p) == p + (mode - p) * (3 # 100)) /\
  (forall clock n,
     FoliageSystem.uProgress (FoliageSystem.frames clock 1 n FoliageSystem.init)
     == 1 - (1 - (2 # 100)) ^ Z.of_nat n) /\
  (forall d n,
     Nat.iter n (fun p => fst (OrnamentSystem.useFrame 1 d p)) 0
     == 1 - (1 - (4 # 100)) ^ Z.of_nat n) /\
  (forall treePos scatterPos n,
     Nat.iter n (fun p => fst (Polaroid.useFrame 1 treePos scatterPos p)) 0
     == 1 - (1 - (3 # 100)) ^ Z.of_nat n) /\
  (forall clock,
     (8665 # 10000)
       < FoliageSystem.uProgress (FoliageSystem.frames clock 1 100 FoliageSystem.init)
     /\ FoliageSystem.uProgress (FoliageSystem.frames clock 1 100 FoliageSystem.init)
       < (8675 # 10000)).
Proof.
  split; [intros; apply lerp_update |].
  split; [intros; apply lerp_update |].
  split; [intros; apply lerp_update |].
  split; [intros; rewrite foliage_frames_progress; apply lerp_iter_closed_form |].
  split; [intros; apply (lerp_iter_closed_form (4 # 100)) |].
  split; [intros; apply (lerp_iter_closed_form (3 # 100)) |].
  intros clock. rewrite foliage_frames_progress.
  split; vm_compute; reflexivity.
Qed.

(** ** Powers of two *)

Lemma pow2_pos e : 0 < IEEE.pow2 e.
Proof. apply Qpower_0_lt. reflexivity. Qed.

Lemma pow2_add a b : IEEE.pow2 (a + b) == IEEE.pow2 a * IEEE.pow2 b.
Proof. apply Qpower_plus. discriminate. Qed.



Lemma pow2_lt_inv a b : IEEE.pow2 a < IEEE.pow2 b -> (a < b)%Z.
Proof. intros H. apply (Qpower_lt_compat_l_inv 2); [exact H | reflexivity]. Qed.

Lemma pow2_int n : (0 <= n)%Z -> IEEE.pow2 n == inject_Z (2 ^ n).
Proof. intros H. unfold IEEE.pow2. rewrite Zpower_Qpower by exact H. reflexivity. Qed.

Lemma pow2_succ a : IEEE.pow2 (a + 1) == 2 * IEEE.pow2 a.
Proof. rewrite pow2_add. change (IEEE.pow2 1) with 2. ring. Qed.

Lemma pow2_pred a : IEEE.pow2 (a - 1) == IEEE.pow2 a * (1 # 2).
Proof.
  assert (E : IEEE.pow2 a == IEEE.pow2 (a - 1 + 1)) by (replace (a - 1 + 1)%Z with a by lia; reflexivity).
  rewrite E, pow2_succ. ring.
Qed.

(** [IEEE.ilog2] is the floor of the binary logarithm. *)
Lemma ilog2_spec q : 0 < q -> IEEE.pow2 (IEEE.ilog2 q) <= q /\ q < IEEE.pow2 (IEEE.ilog2 q + 1).
Proof.
  intros Hq. destruct q as [n d]. unfold IEEE.ilog2. cbn [Qnum Qden].
  assert (Hn : (0 < n)%Z) by (unfold Qlt in Hq; cbn in Hq; lia).
  pose proof (Z.log2_spec n Hn) as [Hn1 Hn2].
  pose proof (Z.log2_spec (Zpos d) (Pos2Z.is_pos d)) as [Hd1 Hd2].
  pose proof (Z.log2_nonneg n) as Ln. pose proof (Z.log2_nonneg (Zpos d)) as Ld.
  set (ln := Z.log2 n) in *. set (ld := Z.log2 (Zpos d)) in *.
  rewrite Zle_Qle in Hn1, Hd1. rewrite Zlt_Qlt in Hn2, Hd2.
  replace (Z.succ ln) with (ln + 1)%Z in Hn2 by lia.
  replace (Z.succ ld) with (ld + 1)%Z in Hd2 by lia.
  rewrite <- pow2_int in Hn1, Hn2, Hd1, Hd2 by lia.
  rewrite pow2_succ in Hn2, Hd2.
  assert (EA : IEEE.pow2 ln == IEEE.pow2 (ln - ld) * IEEE.pow2 ld)
    by (rewrite <- pow2_add; replace (ln - ld + ld)%Z with ln by lia; reflexivity).
  pose proof (pow2_pos (ln - ld)) as HP. pose proof (pow2_pos ld) as HD.
  assert (HDn : 0 < inject_Z (Zpos d)) by (rewrite <- (Zlt_Qlt 0); lia).
  assert (Eq : (n # d) * inject_Z (Zpos d) == inject_Z n).
  { rewrite (Qmake_Qdiv n d). field. intros E. rewrite E in HDn. discriminate. }
  set (q := n # d) in *. set (N := inject_Z n) in *. set (Dn := inject_Z (Zpos d)) in *.
  set (P := IEEE.pow2 (ln - ld)) in *. set (A := IEEE.pow2 ln) in *. set (D := IEEE.pow2 ld) in *.
  destruct (Qle_bool P q) eqn:Eb.
  - apply Qle_bool_iff in Eb. split; [exact Eb |].
    rewrite pow2_succ. fold P.
    clearbody q N Dn P A D. clear - Eq EA HP HD HDn Hn2 Hd1 Eb.
    apply Qnot_le_lt. intros Hc.
    assert (0 <= (q - 2 * P) * Dn) by (apply Qmult_le_0_compat; lra).
    assert (0 <= P * (Dn - D)) by (apply Qmult_le_0_compat; lra).
    lra.
  - assert (Hlt : q < P).
    { apply Qnot_le_lt. intros Hc. apply Qle_bool_iff in Hc. congruence. }
    replace (ln - ld - 1 + 1)%Z with (ln - ld)%Z by lia. split; [| exact Hlt].
    rewrite pow2_pred. fold P.
    clearbody q N Dn P A D. clear - Eq EA HP HD HDn Hn1 Hd2 Hlt.
    apply Qnot_lt_le. intros Hc.
    assert (0 < (P - 2 * q) * Dn) by (apply Qmult_lt_0_compat; lra).
    assert (0 <= P * (2 * D - Dn)) by (apply Qmult_le_0_compat; lra).
    lra.
Qed.

Lemma ilog2_lt q n : 0 < q -> q < IEEE.pow2 n -> (IEEE.ilog2 q < n)%Z.
Proof.
  intros Hq Hn. destruct (ilog2_spec q Hq) as [H1 _].
  apply pow2_lt_inv. lra.
Qed.


(** ** Rounding to an integer *)

Lemma rne_floor t : (Qfloor t <= IEEE.rne t <= Qfloor t + 1)%Z.
Proof.
  unfold IEEE.rne. destruct (Qcompare _ _); [destruct (Z.even _) | |]; lia.
Qed.

Lemma rne_le t N : t <= inject_Z N -> (IEEE.rne t <= N)%Z.
Proof.
  intros H. pose proof (Qfloor_le t) as Hf. unfold IEEE.rne.
  assert (Hle : (Qfloor t <= N)%Z) by (rewrite Zle_Qle; lra).
  destruct (Qcompare_spec (t - inject_Z (Qfloor t)) (1 # 2)) as [E | L | G].
  - assert (Qfloor t < N)%Z by (rewrite Zlt_Qlt; lra).
    destruct (Z.even _); lia.
  - exact Hle.
  - assert (Qfloor t < N)%Z by (rewrite Zlt_Qlt; lra). lia.
Qed.

Lemma rne_ge t N : inject_Z N <= t -> (N <= IEEE.rne t)%Z.
Proof.
  intros H. pose proof (rne_floor t) as Hr.
  assert (N <= Qfloor t)%Z.
  { rewrite <- (Qfloor_Z N). apply Qfloor_resp_le. exact H. }
  lia.
Qed.



(** ** Rounding to the format *)

Lemma Qabs_pos q : ~ q == 0 -> 0 < Qabs q.
Proof.
  intros H. apply Qabs_case; intros Hq.
  - apply Qnot_le_lt. intros Hc. apply H. lra.
  - apply Qnot_le_lt. intros Hc. apply H. lra.
Qed.


Section Rounding.

Variables prec emin : Z.


Lemma expo_le q g :
  (emin <= g)%Z -> Qabs q < IEEE.pow2 (g + prec) -> (IEEE.expo prec emin q <= g)%Z.
Proof.
  intros Hg Hq. unfold IEEE.expo. destruct (Qeq_bool q 0) eqn:E; [exact Hg |].
  apply Qeq_bool_neq in E. apply Qabs_pos in E.
  pose proof (ilog2_lt (Qabs q) (g + prec) E Hq). lia.
Qed.

(** A number of the grid [2 ^ g] is one of the finer grid of [q]. *)
Lemma grid_refine q n g :
  (emin <= g)%Z -> Qabs q < IEEE.pow2 (g + prec) ->
  let e := IEEE.expo prec emin q in
  inject_Z n * IEEE.pow2 g == inject_Z (n * 2 ^ (g - e)) * IEEE.pow2 e.
Proof.
  intros Hg Hq e. pose proof (expo_le q g Hg Hq) as He. fold e in He.
  rewrite inject_Z_mult, <- pow2_int by lia.
  rewrite <- Qmult_assoc, <- pow2_add.
  replace (g - e + e)%Z with g by lia. reflexivity.
Qed.

Lemma div_pow2_le q c e : q <= c * IEEE.pow2 e -> q / IEEE.pow2 e <= c.
Proof.
  intros H. pose proof (pow2_pos e) as Hp.
  apply Qle_shift_div_r; assumption.
Qed.

Lemma div_pow2_ge q c e : c * IEEE.pow2 e <= q -> c <= q / IEEE.pow2 e.
Proof.
  intros H. pose proof (pow2_pos e) as Hp.
  apply Qle_shift_div_l; assumption.
Qed.

(** Rounding does not cross a number of a grid no finer than the one it
    rounds to. *)
Lemma round_le q n g :
  (emin <= g)%Z -> Qabs q < IEEE.pow2 (g + prec) ->
  q <= inject_Z n * IEEE.pow2 g -> IEEE.round prec emin q <= inject_Z n * IEEE.pow2 g.
Proof.
  intros Hg Hq H. rewrite (grid_refine q n g Hg Hq) in *.
  unfold IEEE.round. set (e := IEEE.expo prec emin q) in *.
  pose proof (pow2_pos e) as Hp.
  apply Qmult_le_compat_r; [| lra].
  rewrite <- Zle_Qle. apply rne_le. apply div_pow2_le. exact H.
Qed.

Lemma round_ge q n g :
  (emin <= g)%Z -> Qabs q < IEEE.pow2 (g + prec) ->
  inject_Z n * IEEE.pow2 g <= q -> inject_Z n * IEEE.pow2 g <= IEEE.round prec emin q.
Proof.
  intros Hg Hq H. rewrite (grid_refine q n g Hg Hq) in *.
  unfold IEEE.round. set (e := IEEE.expo prec emin q) in *.
  pose proof (pow2_pos e) as Hp.
  apply Qmult_le_compat_r; [| lra].
  rewrite <- Zle_Qle. apply rne_ge. apply div_pow2_ge. exact H.
Qed.


End Rounding.

Section Mantissa.

Variables prec emin : Z.
Hypothesis prec_nonneg : (0 <= prec)%Z.



Lemma round_between q a b g :
  (emin <= g)%Z -> (Z.abs a < 2 ^ prec)%Z -> (Z.abs b < 2 ^ prec)%Z ->
  inject_Z a * IEEE.pow2 g <= q -> q <= inject_Z b * IEEE.pow2 g ->
  inject_Z a * IEEE.pow2 g <= IEEE.round prec emin q /\ IEEE.round prec emin q <= inject_Z b * IEEE.pow2 g.
Proof.
  intros Hg Ha Hb H1 H2.
  assert (Hq : Qabs q < IEEE.pow2 (g + prec)).
  { rewrite pow2_add, (pow2_int prec prec_nonneg), Qmult_comm.
    pose proof (pow2_pos g) as Hp.
    assert (A1 : - inject_Z (2 ^ prec) < inject_Z a)
      by (rewrite <- inject_Z_opp, <- Zlt_Qlt; lia).
    assert (B1 : inject_Z b < inject_Z (2 ^ prec)) by (rewrite <- Zlt_Qlt; lia).
    set (T := inject_Z (2 ^ prec)) in *. set (P := IEEE.pow2 g) in *.
    set (A := inject_Z a) in *. set (B := inject_Z b) in *.
    clearbody T P A B.
    assert (0 < (A + T) * P) by (apply Qmult_lt_0_compat; lra).
    assert (0 < (T - B) * P) by (apply Qmult_lt_0_compat; lra).
    apply Qabs_case; intros; lra. }
  split; [apply round_ge | apply round_le]; assumption.
Qed.

Lemma round_exact n g :
  (emin <= g)%Z -> (Z.abs n < 2 ^ prec)%Z ->
  IEEE.round prec emin (inject_Z n * IEEE.pow2 g) == inject_Z n * IEEE.pow2 g.
Proof.
  intros Hg Hn.
  destruct (round_between (inject_Z n * IEEE.pow2 g) n n g Hg Hn Hn) as [H1 H2]; lra.
Qed.

End Mantissa.

(** The formats at work: a tenth in binary32 and in binary64, a tie going to
    the even mantissa, and a number below the least normal one. *)
Example round_examples :
  Float32.round (1 # 10) == 13421773 # 134217728
  /\ Float64.round (1 # 10) == 3602879701896397 # 36028797018963968
  /\ Float32.round 16777217 == 16777216
  /\ Float32.round 16777219 == 16777220
  /\ Float32.round ((5 # 2) * IEEE.pow2 (-149)) == 2 * IEEE.pow2 (-149)
  /\ Float32.div (-52428852) 50 == -1048577.
Proof. vm_compute. repeat split; reflexivity. Qed.

(** ** binary32 *)

Lemma f32_between q a b g :
  (-149 <= g)%Z -> (Z.abs a < 2 ^ 24)%Z -> (Z.abs b < 2 ^ 24)%Z ->
  inject_Z a * IEEE.pow2 g <= q -> q <= inject_Z b * IEEE.pow2 g ->
  inject_Z a * IEEE.pow2 g <= Float32.round q /\ Float32.round q <= inject_Z b * IEEE.pow2 g.
Proof. apply (round_between 24 (-149)). lia. Qed.

Lemma f32_between_int q a b :
  (Z.abs a < 2 ^ 24)%Z -> (Z.abs b < 2 ^ 24)%Z ->
  inject_Z a <= q -> q <= inject_Z b ->
  inject_Z a <= Float32.round q /\ Float32.round q <= inject_Z b.
Proof.
  intros Ha Hb H1 H2.
  destruct (f32_between q a b 0) as [L U]; try assumption; try lia.
  - change (IEEE.pow2 0) with 1. lra.
  - change (IEEE.pow2 0) with 1. lra.
  - change (IEEE.pow2 0) with 1 in L, U. lra.
Qed.

Lemma f32_exact_int n :
  (Z.abs n < 2 ^ 24)%Z -> Float32.round (inject_Z n) == inject_Z n.
Proof.
  intros Hn. destruct (f32_between_int (inject_Z n) n n Hn Hn); lra.
Qed.




(** ** The snow wrap *)

(** [mod] in binary32: the remainder of a small negative number rounds up to
    the divisor itself, so that both ends of the band are reached; past
    [2 ^ 25] the remainder can be negative. *)
Example glsl_mod_examples :
  SnowShaderMaterial.glsl_mod 7 50 == 7
  /\ SnowShaderMaterial.glsl_mod (-7) 50 == 43
  /\ SnowShaderMaterial.glsl_mod 0 50 == 0
  /\ SnowShaderMaterial.glsl_mod (Float32.round (- (1 # 1000000000))) 50 == 50
  /\ SnowShaderMaterial.glsl_mod (-52428852) 50 == -4.
Proof. vm_compute. repeat split; reflexivity. Qed.





(** ** Loops over [Math.random] *)

(** A property of the loop state that each iteration carries from [i] to
    [S i] holds at the end of the loop. *)
Lemma for_loop_invariant {S : Type} (P : nat -> S -> Prop)
    (body : nat -> S -> Random.Rand S) (rho : Random.Stream) :
  forall (n start : nat) (s : S) (c : nat),
    P start s ->
    (forall i s c, (start <= i < start + n)%nat -> P i s ->
                   P (Datatypes.S i) (fst (body i s rho c))) ->
    P (start + n)%nat (fst (Random.for_loop n start body s rho c)).
Proof.
  induction n as [| n IH]; intros start s c H0 Hstep.
  - rewrite Nat.add_0_r. exact H0.
  - cbn [Random.for_loop]. unfold Random.bind.
    pose proof (Hstep start s c ltac:(lia) H0) as H1.
    destruct (body start s rho c) as [s1 c1]. cbn [fst] in H1.
    replace (start + Datatypes.S n)%nat with (Datatypes.S start + n)%nat by lia.
    apply IH; [exact H1 |].
    intros i s' c' Hi. apply Hstep. lia.
Qed.

(** A loop whose iteration [i] pushes one item made from [w] draws builds the
    list of those items. *)
Lemma for_loop_push {A : Type} (item : nat -> Random.Stream -> nat -> A) (w : nat)
    (body : nat -> list A -> Random.Rand (list A)) (rho : Random.Stream) :
  (forall i d c, body i d rho c = (d ++ [item i rho c], (w + c)%nat)) ->
  forall (n start : nat) (d : list A) (c : nat),
    Random.for_loop n start body d rho c
    = (d ++ map (fun j => item (start + j)%nat rho (j * w + c)%nat) (seq 0 n),
       (n * w + c)%nat).
Proof.
  intros Hbody. induction n as [| n IH]; intros start d c.
  - cbn. now rewrite app_nil_r.
  - cbn [Random.for_loop]. unfold Random.bind. rewrite Hbody, IH.
    rewrite <- app_assoc. cbn [seq map app].
    rewrite <- seq_shift, map_map, Nat.add_0_r.
    f_equal; [| lia].
    f_equal. f_equal.
    apply map_ext. intros j.
    replace (Datatypes.S start + j)%nat with (start + Datatypes.S j)%nat by lia.
    f_equal. lia.
Qed.

Lemma nth_error_map_seq {A : Type} (f : nat -> A) (n i : nat) :
  (i < n)%nat -> nth_error (map f (seq 0 n)) i = Some (f i).
Proof.
  intros Hi. rewrite nth_error_map.
  rewrite (nth_error_nth' (seq 0 n) 0%nat) by (rewrite length_seq; exact Hi).
  rewrite seq_nth by exact Hi. reflexivity.
Qed.

(** ** Array stores *)

Lemma store_length i v a : List.length (store i v a) = List.length a.
Proof.
  revert i. induction a as [| h t IH]; intros [| i]; cbn; auto.
Qed.

Lemma nth_store_same i v a d :
  (i < List.length a)%nat -> nth i (store i v a) d = v.
Proof.
  revert i. induction a as [| h t IH]; intros [| i] Hi; cbn in *; try lia; auto.
  apply IH. lia.
Qed.

Lemma nth_store_other i j v a d :
  i <> j -> nth j (store i v a) d = nth j a d.
Proof.
  revert i j. induction a as [| h t IH]; intros [| i] [| j] Hij; cbn; auto;
    congruence.
Qed.

(** ** Numbers of the index *)

Lemma num_le (i j : nat) : (i <= j)%nat -> num i <= num j.
Proof. intros H. unfold num. rewrite <- Zle_Qle. lia. Qed.

Lemma num_pos (n : nat) : (1 <= n)%nat -> 0 < num n.
Proof. intros H. unfold num. change 0 with (inject_Z 0). rewrite <- Zlt_Qlt. lia. Qed.

Lemma num_pred (n : nat) : (1 <= n)%nat -> num (n - 1) == num n - 1.
Proof.
  intros H. unfold num. rewrite Nat2Z.inj_sub by exact H.
  unfold Z.sub. rewrite inject_Z_plus, inject_Z_opp. reflexivity.
Qed.

Lemma foliageTreeY_eq (count i : nat) :
  foliageTreeY count i == num i / num count * 20 - 20 / 2.
Proof. reflexivity. Qed.

Lemma foliageTreeY_monotone (count i j : nat) :
  (1 <= count)%nat -> (i <= j)%nat -> foliageTreeY count i <= foliageTreeY count j.
Proof.
  intros Hc Hij. rewrite !foliageTreeY_eq.
  pose proof (num_pos count Hc) as Hpos.
  pose proof (num_le i j Hij) as Hle.
  assert (H : num i / num count <= num j / num count).
  { apply Qle_shift_div_l; [exact Hpos |].
    assert (E : num i / num count * num count == num i) by (field; lra).
    rewrite E. exact Hle. }
  lra.
Qed.

Lemma foliageTreeY_bottom (count : nat) :
  (1 <= count)%nat -> foliageTreeY count 0 == - (20 / 2).
Proof.
  intros Hc. rewrite foliageTreeY_eq. pose proof (num_pos count Hc).
  unfold num at 1. cbn [Z.of_nat]. field. lra.
Qed.

Lemma foliageTreeY_top (count : nat) :
  (1 <= count)%nat -> foliageTreeY count (count - 1) == 20 / 2 - 20 / num count.
Proof.
  intros Hc. rewrite foliageTreeY_eq, (num_pred count Hc).
  pose proof (num_pos count Hc). field. lra.
Qed.

Lemma foliageTreeY_below (count i : nat) :
  (i < count)%nat -> foliageTreeY count i < 20 / 2.
Proof.
  intros Hi.
  assert (Hc : (1 <= count)%nat) by lia.
  apply Qle_lt_trans with (foliageTreeY count (count - 1)).
  - apply foliageTreeY_monotone; lia.
  - rewrite (foliageTreeY_top count Hc).
    pose proof (num_pos count Hc) as Hpos.
    assert (0 < 20 / num count) by (apply Qlt_shift_div_l; lra).
    lra.
Qed.

(** ** The foliage generator *)

(** What one iteration does to the two position arrays. *)
Lemma generateFoliageData_body_arrays (M : MathLib) (count i : nat)
    (d : FoliageData) (rho : Random.Stream) (c : nat) :
  let d' := fst (generateFoliageData_body count i d rho c) in
  (exists xTree zTree,
      positionsTree d'
      = store (i * 3 + 2) zTree
          (store (i * 3 + 1) (foliageTreeY count i)
             (store (i * 3) xTree (positionsTree d))))
  /\ List.length (positionsScatter d') = List.length (positionsScatter d).
Proof.
  cbv [generateFoliageData_body Random.bind Random.Math_random Random.ret].
  cbn [fst positionsTree positionsScatter].
  split.
  - eexists. eexists. reflexivity.
  - now rewrite !store_length.
Qed.

Lemma generateFoliageData_invariant (M : MathLib) (rho : Random.Stream) (count : nat) :
  foliage_invariant count count (Random.run (generateFoliageData count) rho).
Proof.
  unfold Random.run, generateFoliageData.
  change count with (0 + count)%nat at 2.
  apply (for_loop_invariant (foliage_invariant count)).
  - unfold foliage_invariant, Float32Array. cbn [positionsTree positionsScatter].
    rewrite !repeat_length. repeat split; intros; lia.
  - intros i d c Hi (HT & HS & Hy).
    destruct (generateFoliageData_body_arrays M count i d rho c) as ((xT & zT & ET) & ES).
    unfold foliage_invariant. rewrite ET, ES, !store_length.
    repeat split; try assumption.
    intros j Hj.
    rewrite nth_store_other by lia.
    destruct (Nat.eq_dec j i) as [-> | Hne].
    + apply nth_store_same. rewrite store_length. lia.
    + rewrite !nth_store_other by lia. apply Hy. lia.
Qed.

(** C1 (as the code has it).  For every count N the generator fills N tree
    triples and N scatter triples; particle i has the height
    (i/N)*H - H/2 with H = 20; for N >= 1 the lowest height is -H/2 (at i = 0)
    and the highest is H/2 - H/N (at i = N - 1), below H/2. *)
Theorem generateFoliageData_shape :
  forall (M : MathLib) (rho : Random.Stream) (count : nat),
    let d := Random.run (generateFoliageData count) rho in
    List.length (positionsTree d) = (count * 3)%nat
    /\ List.length (positionsScatter d) = (count * 3)%nat
    /\ (forall i, (i < count)%nat ->
          nth (i * 3 + 1) (positionsTree d) 0 = foliageTreeY count i
          /\ foliageTreeY count i == num i / num count * 20 - 20 / 2
          /\ foliageTreeY count 0 <= foliageTreeY count i
          /\ foliageTreeY count i <= foliageTreeY count (count - 1))
    /\ ((1 <= count)%nat ->
          foliageTreeY count 0 == - (20 / 2)
          /\ foliageTreeY count (count - 1) == 20 / 2 - 20 / num count
          /\ foliageTreeY count (count - 1) < 20 / 2).
Proof.
  intros M rho count d.
  destruct (generateFoliageData_invariant M rho count) as (HT & HS & Hy).
  fold d in HT, HS, Hy.
  split; [exact HT |]. split; [exact HS |]. split.
  - intros i Hi. split; [apply Hy; exact Hi |].
    split; [apply foliageTreeY_eq |].
    split; apply foliageTreeY_monotone; lia.
  - intros Hc. split; [apply foliageTreeY_bottom; exact Hc |].
    split; [apply foliageTreeY_top; exact Hc |].
    apply foliageTreeY_below. lia.
Qed.

Lemma generateFoliageData_shape_witness :
  let d := Random.run (@generateFoliageData constantMath 4) (fun _ => 1 # 2) in
  nth (3 * 3 + 1) (positionsTree d) 0 = foliageTreeY 4 3
  /\ foliageTreeY 4 (4 - 1) < 20 / 2.
Proof.
  destruct (generateFoliageData_shape constantMath (fun _ => 1 # 2) 4)
    as (_ & _ & Hi & Hc).
  split.
  - apply (Hi 3%nat). lia.
  - apply Hc. lia.
Defined.

(** With four particles the heights are -10, -5, 0 and 5: none is H/2 = 10. *)
Lemma foliage_top_is_below_half_height :
  ~ (exists (M : MathLib) (rho : Random.Stream) (i : nat),
        (i < 4)%nat
        /\ nth (i * 3 + 1)
             (positionsTree (Random.run (@generateFoliageData M 4) rho)) 0
           == 20 / 2).
Proof.
  intros (M & rho & i & Hi & E).
  destruct (generateFoliageData_invariant M rho 4) as (_ & _ & Hy).
  rewrite (Hy i Hi) in E.
  pose proof (foliageTreeY_below 4 i Hi) as Hlt.
  rewrite E in Hlt. revert Hlt. apply Qlt_irrefl.
Qed.

(** ** Ornament and photo placements *)

Lemma ornament_data_items (M : MathLib) (rho : Random.Stream) :
  Random.run OrnamentSystem.data rho
  = map (fun i => ornamentItem rho (i * 8)%nat) (seq 0 OrnamentSystem.count).
Proof.
  unfold Random.run, OrnamentSystem.data.
  rewrite (for_loop_push (fun _ => ornamentItem) 8) by (intros; reflexivity).
  cbn [fst app]. apply map_ext. intros i. now rewrite Nat.add_0_r.
Qed.

Lemma photo_slots_items (M : MathLib) (rho : Random.Stream) :
  Random.run PhotoSystem.slots rho
  = map (fun i => photoSlot i rho (i * 3)%nat) (seq 0 PhotoSystem.count).
Proof.
  unfold Random.run, PhotoSystem.slots.
  rewrite (for_loop_push photoSlot 3) by (intros; reflexivity).
  cbn [fst app]. apply map_ext. intros i. now rewrite Nat.add_0_r.
Qed.

Lemma ornament_treePos (M : MathLib) (rho : Random.Stream) (i : nat) :
  (i < OrnamentSystem.count)%nat ->
  option_map OrnamentSystem.treePos (nth_error (Random.run OrnamentSystem.data rho) i)
  = Some (OrnamentSystem.treePosOf (rho (i * 8)%nat) (rho (1 + i * 8)%nat)).
Proof.
  intros Hi. rewrite ornament_data_items, nth_error_map_seq by exact Hi.
  reflexivity.
Qed.

(** C8 (as the code has it).  The tree position of photo slot i is a fixed
    function of i: the height and the angle of the spiral are computed from
    the index, and no draw of the random source enters.  The tree position of
    ornament i is computed from two draws of the random source (the height
    fraction and the angle), not from its index. *)
Theorem placements_of_slots_and_ornaments :
  forall (M : MathLib),
    (forall (rho : Random.Stream),
       List.length (Random.run PhotoSystem.slots rho) = 9%nat
       /\ List.length (Random.run OrnamentSystem.data rho) = 400%nat)
    /\ (forall (rho : Random.Stream) (i : nat), (i < 9)%nat ->
          option_map PhotoSystem.treePos (nth_error (Random.run PhotoSystem.slots rho) i)
          = Some (PhotoSystem.slotTreePos i))
    /\ (forall (i : nat),
          PhotoSystem.slotTreePos i
          = let t := num i / num 8 in
            let angle := t * Math_PI * 4 + num i * (5 # 10) in
            let r := (1 - t * (8 # 10)) * (85 # 10) in
            THREE.Vec3 (Math_cos angle * r) (t * 14 - 14 / 2 + 2) (Math_sin angle * r))
    /\ (forall (rho : Random.Stream) (i : nat), (i < 400)%nat ->
          option_map OrnamentSystem.treePos
            (nth_error (Random.run OrnamentSystem.data rho) i)
          = Some (OrnamentSystem.treePosOf (rho (i * 8)%nat) (rho (1 + i * 8)%nat))).
Proof.
  intros M. split; [| split; [| split]].
  - intros rho. rewrite photo_slots_items, ornament_data_items.
    rewrite !length_map, !length_seq. split; reflexivity.
  - intros rho i Hi. rewrite photo_slots_items.
    rewrite nth_error_map_seq by exact Hi. reflexivity.
  - intros i. reflexivity.
  - intros rho i Hi. apply ornament_treePos. exact Hi.
Qed.

Lemma placements_of_slots_and_ornaments_witness :
  option_map PhotoSystem.treePos
    (nth_error (Random.run (@PhotoSystem.slots constantMath) (fun _ => 1 # 2)) 8)
  = Some (@PhotoSystem.slotTreePos constantMath 8)
  /\ option_map OrnamentSystem.treePos
       (nth_error (Random.run (@OrnamentSystem.data constantMath) (fun _ => 1 # 2)) 399)
     = Some (@OrnamentSystem.treePosOf constantMath (1 # 2) (1 # 2)).
Proof.
  destruct (placements_of_slots_and_ornaments constantMath) as (_ & Hslot & _ & Horn).
  split.
  - apply (Hslot (fun _ => 1 # 2) 8%nat). lia.
  - apply (Horn (fun _ => 1 # 2) 399%nat). lia.
Defined.

(** Two runs that draw different numbers put ornament 0 at different heights
    (-9 when the first draw is 0, 0 when it is 1/2): its tree position is not
    a function of its index. *)
Lemma ornament_placement_depends_on_draws :
  exists (rho1 rho2 : Random.Stream),
    forall (M : MathLib),
      option_map (fun item => THREE.y (OrnamentSystem.treePos item))
        (nth_error (Random.run OrnamentSystem.data rho1) 0) = Some (0 * 18 - 18 / 2)
      /\ option_map (fun item => THREE.y (OrnamentSystem.treePos item))
           (nth_error (Random.run OrnamentSystem.data rho2) 0)
         = Some ((1 # 2) * 18 - 18 / 2)
      /\ ~ (0 * 18 - 18 / 2 == (1 # 2) * 18 - 18 / 2).
Proof.
  exists (fun _ => 0), (fun _ => 1 # 2). intros M.
  rewrite !ornament_data_items.
  rewrite !nth_error_map_seq by (unfold OrnamentSystem.count; lia).
  repeat split. discriminate.
Qed.

(** ** The photo bindings *)

Lemma render_from_length start slots userPhotos focusedIdx :
  List.length (fst (PhotoSystem.render_from start slots userPhotos focusedIdx))
  = List.length slots.
Proof.
  revert start. induction slots as [| s rest IH]; intros start; [reflexivity |].
  cbn [PhotoSystem.render_from]. specialize (IH (S start)).
  destruct (PhotoSystem.photoUrl userPhotos start) as [url ops].
  destruct (PhotoSystem.render_from (S start) rest userPhotos focusedIdx) as [ps ops'].
  cbn [fst List.length] in *. now rewrite IH.
Qed.

(** The props rendered for the slot at position [i]. *)
Lemma render_from_nth start slots userPhotos focusedIdx i s :
  nth_error slots i = Some s ->
  nth_error (fst (PhotoSystem.render_from start slots userPhotos focusedIdx)) i
  = Some {| PhotoSystem.slot := s;
            PhotoSystem.index_ := (start + i)%nat;
            PhotoSystem.photoUrl_ := fst (PhotoSystem.photoUrl userPhotos (start + i)%nat);
            PhotoSystem.isFocused := PhotoSystem.isFocusedAt focusedIdx (start + i)%nat |}.
Proof.
  revert start i. induction slots as [| s0 rest IH]; intros start i Hs.
  - destruct i; discriminate.
  - cbn [PhotoSystem.render_from]. specialize (IH (S start)).
    destruct (PhotoSystem.photoUrl userPhotos start) as [url ops] eqn:Eurl.
    destruct (PhotoSystem.render_from (S start) rest userPhotos focusedIdx) as [ps ops'].
    cbn [fst] in *. destruct i as [| i].
    + cbn in Hs. injection Hs as ->. rewrite Nat.add_0_r, Eurl. reflexivity.
    + cbn [nth_error] in *. rewrite (IH i Hs).
      replace (S start + i)%nat with (start + S i)%nat by lia. reflexivity.
Qed.

(** Every operation a render evaluates, given what [photoUrl] evaluates. *)
Lemma render_from_ops (P : Op -> Prop) start slots userPhotos focusedIdx :
  (forall i, Forall P (snd (PhotoSystem.photoUrl userPhotos i))) ->
  Forall P (snd (PhotoSystem.render_from start slots userPhotos focusedIdx)).
Proof.
  intros HP. revert start. induction slots as [| s rest IH]; intros start.
  - constructor.
  - cbn [PhotoSystem.render_from]. specialize (IH (S start)). specialize (HP start).
    destruct (PhotoSystem.photoUrl userPhotos start) as [url ops].
    destruct (PhotoSystem.render_from (S start) rest userPhotos focusedIdx) as [ps ops'].
    cbn [snd] in *. apply Forall_app. split; assumption.
Qed.

Lemma photoUrl_nonempty (userPhotos : list string) (i : nat) :
  (1 <= List.length userPhotos)%nat ->
  exists url,
    nth_error userPhotos (i mod List.length userPhotos) = Some url
    /\ fst (PhotoSystem.photoUrl userPhotos i) = JsString url.
Proof.
  intros Hlen. unfold PhotoSystem.photoUrl.
  destruct (Nat.ltb_spec 0 (List.length userPhotos)) as [_ | ?]; [| lia].
  cbn [fst]. unfold PhotoSystem.remainder.
  destruct (List.length userPhotos) as [| n] eqn:En; [lia |].
  rewrite <- En. cbn [PhotoSystem.index].
  destruct (nth_error userPhotos (i mod List.length userPhotos)) as [url |] eqn:E.
  - exists url. split; reflexivity.
  - apply nth_error_None in E.
    pose proof (Nat.mod_upper_bound i (List.length userPhotos)). lia.
Qed.

Lemma activeTexture_loaded (url : string) :
  url <> EmptyString -> PhotoWrapper.activeTexture (JsString url) = Loaded url.
Proof.
  intros Hne. destruct url as [| a u]; [congruence | reflexivity].
Qed.

(** C9.  With at least one and fewer than nine uploaded photos, slot i
    (i = 0..8) is bound to the photo at index [i mod uploadedCount] of the
    current-photos list, and shows the texture loaded from it. *)
Theorem photo_cyclic_assignment :
  forall (slots : list PhotoSystem.Slot) (userPhotos : list string)
         (focusedIdx : option nat) (i : nat),
    List.length slots = 9%nat ->
    (1 <= List.length userPhotos)%nat ->
    (List.length userPhotos < 9)%nat ->
    (i < 9)%nat ->
    exists (url : string) (p : PhotoSystem.Props),
      nth_error userPhotos (i mod List.length userPhotos) = Some url
      /\ nth_error (fst (PhotoSystem.render slots userPhotos focusedIdx)) i = Some p
      /\ PhotoSystem.index_ p = i
      /\ PhotoSystem.photoUrl_ p = JsString url
      /\ (url <> EmptyString ->
          PhotoWrapper.activeTexture (PhotoSystem.photoUrl_ p) = Loaded url).
Proof.
  intros slots userPhotos focusedIdx i Hslots Hlo _ Hi.
  destruct (photoUrl_nonempty userPhotos i Hlo) as (url & Hnth & Hurl).
  destruct (nth_error slots i) as [s |] eqn:Es.
  2:{ apply nth_error_None in Es. lia. }
  exists url. eexists. split; [exact Hnth |].
  unfold PhotoSystem.render.
  rewrite (render_from_nth 0 slots userPhotos focusedIdx i s Es).
  cbn [Nat.add PhotoSystem.index_ PhotoSystem.photoUrl_].
  split; [reflexivity |]. split; [reflexivity |]. split; [exact Hurl |].
  rewrite Hurl. apply activeTexture_loaded.
Qed.

Lemma photo_cyclic_assignment_witness :
  exists (url : string) (p : PhotoSystem.Props),
    nth_error ["a"; "b"]%string (5 mod 2) = Some url
    /\ nth_error
         (fst (PhotoSystem.render
                 (Random.run (@PhotoSystem.slots constantMath) (fun _ => 1 # 2))
                 ["a"; "b"]%string None)) 5 = Some p
    /\ PhotoSystem.index_ p = 5%nat
    /\ PhotoSystem.photoUrl_ p = JsString url
    /\ (url <> EmptyString ->
        PhotoWrapper.activeTexture (PhotoSystem.photoUrl_ p) = Loaded url).
Proof.
  apply (photo_cyclic_assignment
           (Random.run (@PhotoSystem.slots constantMath) (fun _ => 1 # 2))
           ["a"; "b"]%string None 5%nat).
  - reflexivity.
  - cbn. lia.
  - cbn. lia.
  - lia.
Defined.

(** C10.  With no uploaded photo the binding of a slot evaluates neither the
    remainder nor the index: every one of the nine slots is bound to [null]
    and shows the placeholder.  Whatever the photo list, no remainder is
    taken by zero. *)
Theorem empty_photos_show_placeholder :
  forall (M : MathLib) (rho : Random.Stream) (focusedIdx : option nat),
    let slots := Random.run PhotoSystem.slots rho in
    let rendered := PhotoSystem.render slots [] focusedIdx in
    List.length (fst rendered) = 9%nat
    /\ snd rendered = []
    /\ Forall (fun p => PhotoSystem.photoUrl_ p = JsNull
                        /\ PhotoWrapper.activeTexture (PhotoSystem.photoUrl_ p)
                           = Placeholder) (fst rendered)
    /\ (forall (userPhotos : list string),
          Forall (fun op => match op with
                            | OpRemainder _ b => b <> 0%nat
                            | OpIndex _ _ => True
                            end)
                 (snd (PhotoSystem.render slots userPhotos focusedIdx))).
Proof.
  intros M rho focusedIdx slots rendered. subst rendered.
  unfold PhotoSystem.render.
  split; [| split; [| split]].
  - rewrite render_from_length. subst slots.
    rewrite photo_slots_items, length_map, length_seq. reflexivity.
  - generalize 0%nat. induction slots as [| s rest IH]; intros start; [reflexivity |].
    cbn [PhotoSystem.render_from PhotoSystem.photoUrl List.length Nat.ltb Nat.leb].
    specialize (IH (S start)).
    destruct (PhotoSystem.render_from (S start) rest [] focusedIdx) as [ps ops'].
    cbn [snd] in *. rewrite IH. reflexivity.
  - generalize 0%nat. induction slots as [| s rest IH]; intros start; [constructor |].
    cbn [PhotoSystem.render_from PhotoSystem.photoUrl List.length Nat.ltb Nat.leb].
    specialize (IH (S start)).
    destruct (PhotoSystem.render_from (S start) rest [] focusedIdx) as [ps ops'].
    cbn [fst] in *. constructor; [split; reflexivity | exact IH].
  - intros userPhotos. apply render_from_ops. intros i.
    unfold PhotoSystem.photoUrl.
    destruct (Nat.ltb_spec 0 (List.length userPhotos)) as [Hpos | _]; cbn [snd].
    + repeat constructor. lia.
    + constructor.
Qed.

(** ** The focus controller *)

Lemma render_from_none_focused_before start slots userPhotos j :
  (j < start)%nat ->
  focusedSlots (fst (PhotoSystem.render_from start slots userPhotos (Some j))) = [].
Proof.
  revert start. induction slots as [| s rest IH]; intros start Hj; [reflexivity |].
  cbn [PhotoSystem.render_from]. specialize (IH (S start) ltac:(lia)).
  destruct (PhotoSystem.photoUrl userPhotos start) as [url ops].
  destruct (PhotoSystem.render_from (S start) rest userPhotos (Some j)) as [ps ops'].
  cbn [fst focusedSlots filter PhotoSystem.isFocused PhotoSystem.isFocusedAt] in *.
  destruct (Nat.eqb_spec j start); [lia | exact IH].
Qed.

Lemma render_from_at_most_one_focused start slots userPhotos focusedIdx :
  (List.length
     (focusedSlots (fst (PhotoSystem.render_from start slots userPhotos focusedIdx)))
   <= 1)%nat.
Proof.
  revert start. induction slots as [| s rest IH]; intros start; [cbn; lia |].
  pose proof (IH (S start)) as IH'.
  cbn [PhotoSystem.render_from].
  destruct (PhotoSystem.photoUrl userPhotos start) as [url ops].
  destruct focusedIdx as [j |].
  - pose proof (render_from_none_focused_before (S start) rest userPhotos j) as Hnone.
    destruct (PhotoSystem.render_from (S start) rest userPhotos (Some j)) as [ps ops'].
    cbn [fst focusedSlots filter PhotoSystem.isFocused PhotoSystem.isFocusedAt] in *.
    destruct (Nat.eqb_spec j start) as [-> | Hne]; [| exact IH'].
    rewrite Hnone by lia. cbn. lia.
  - destruct (PhotoSystem.render_from (S start) rest userPhotos None) as [ps ops'].
    cbn [fst focusedSlots filter PhotoSystem.isFocused PhotoSystem.isFocusedAt] in *.
    exact IH'.
Qed.

(** C4.  After any sequence of clicks on photo slots, clicks on the
    background and trigger resets, at most one slot is rendered focused, and
    it is the one whose index is [focusedIdx]; a click on the focused slot
    clears the focus, a click on another slot moves the focus there, and a
    click on the background clears it. *)
Theorem focus_is_exclusive :
  (forall (es : list Experience.Event) (slots : list PhotoSystem.Slot)
          (userPhotos : list string),
     let s := Experience.run es Experience.init in
     let rendered := fst (PhotoSystem.render slots userPhotos (Experience.focusedIdx s)) in
     (List.length (focusedSlots rendered) <= 1)%nat
     /\ Forall (fun p => PhotoSystem.isFocused p = true <->
                         Experience.focusedIdx s = Some (PhotoSystem.index_ p))
               rendered)
  /\ (forall (s : Experience.t) (i : nat),
        Experience.focusedIdx s = Some i ->
        Experience.focusedIdx (Experience.handlePhotoClick i s) = None)
  /\ (forall (s : Experience.t) (i j : nat),
        Experience.focusedIdx s = Some i -> j <> i ->
        Experience.focusedIdx (Experience.handlePhotoClick j s) = Some j)
  /\ (forall (s : Experience.t) (j : nat),
        Experience.focusedIdx s = None ->
        Experience.focusedIdx (Experience.handlePhotoClick j s) = Some j)
  /\ (forall (s : Experience.t),
        Experience.focusedIdx (Experience.handleMissed s) = None).
Proof.
  split; [| split; [| split; [| split]]].
  - intros es slots userPhotos s rendered. subst rendered. split.
    + apply render_from_at_most_one_focused.
    + unfold PhotoSystem.render. generalize (Experience.focusedIdx s) as f.
      intros f. generalize 0%nat.
      induction slots as [| sl rest IH]; intros start; [constructor |].
      cbn [PhotoSystem.render_from]. specialize (IH (S start)).
      destruct (PhotoSystem.photoUrl userPhotos start) as [url ops].
      destruct (PhotoSystem.render_from (S start) rest userPhotos f) as [ps ops'].
      cbn [fst] in *. constructor; [| exact IH].
      cbn [PhotoSystem.isFocused PhotoSystem.index_]. unfold PhotoSystem.isFocusedAt.
      destruct f as [j |].
      * rewrite Nat.eqb_eq. split; [intros -> | intros [= ->]]; reflexivity.
      * split; discriminate.
  - intros s i Hs. unfold Experience.handlePhotoClick. rewrite Hs.
    cbn [PhotoSystem.isFocusedAt]. now rewrite Nat.eqb_refl.
  - intros s i j Hs Hne. unfold Experience.handlePhotoClick. rewrite Hs.
    cbn [PhotoSystem.isFocusedAt].
    destruct (Nat.eqb_spec i j); [congruence | reflexivity].
  - intros s j Hs. unfold Experience.handlePhotoClick. now rewrite Hs.
  - intros s. reflexivity.
Qed.

Lemma focus_is_exclusive_witness :
  Experience.focusedIdx
    (Experience.handlePhotoClick 3 (Experience.run [Experience.Click 3] Experience.init))
  = None
  /\ Experience.focusedIdx
       (Experience.handlePhotoClick 5 (Experience.run [Experience.Click 3] Experience.init))
     = Some 5%nat.
Proof.
  destruct focus_is_exclusive as (_ & Hsame & Hother & _ & _).
  split.
  - apply Hsame. reflexivity.
  - apply (Hother _ 3%nat 5%nat); [reflexivity | discriminate].
Defined.

(** ** The upload queue *)

Lemma slice_last_short {A : Type} (n : nat) (arr : list A) :
  (List.length arr <= n)%nat -> App.slice_last n arr = arr.
Proof.
  intros H. unfold App.slice_last.
  replace (List.length arr - n)%nat with 0%nat by lia. reflexivity.
Qed.

Lemma slice_last_length {A : Type} (n : nat) (arr : list A) :
  List.length (App.slice_last n arr) = Nat.min n (List.length arr).
Proof. unfold App.slice_last. rewrite length_skipn. lia. Qed.

(** Keeping the last [n] after each append keeps the last [n] of the whole. *)
Lemma slice_last_app {A : Type} (n : nat) (a b : list A) :
  App.slice_last n (App.slice_last n a ++ b) = App.slice_last n (a ++ b).
Proof.
  destruct (Nat.le_gt_cases (List.length a) n) as [Hle | Hgt].
  - rewrite (slice_last_short n a Hle). reflexivity.
  - unfold App.slice_last.
    rewrite !length_app, length_skipn.
    set (k := (List.length a - n)%nat).
    replace (List.length a - k + List.length b - n)%nat with (List.length b) by lia.
    replace (List.length a + List.length b - n)%nat with (k + List.length b)%nat by lia.
    rewrite (Nat.add_comm k), <- skipn_skipn.
    rewrite (skipn_app k a b).
    replace (k - List.length a)%nat with 0%nat by lia.
    reflexivity.
Qed.

Lemma handleUpload_photos {File : Type} (processImageFile : File -> string)
    (batch : list File) (s : App.t) :
  (List.length (App.userPhotos s) <= 9)%nat ->
  App.userPhotos (App.handleUpload processImageFile (Some batch) s)
  = App.slice_last 9 (App.userPhotos s ++ map processImageFile batch).
Proof.
  intros Hlen. destruct batch as [| f fs].
  - cbn [App.handleUpload map]. rewrite app_nil_r.
    symmetry. apply slice_last_short. exact Hlen.
  - reflexivity.
Qed.

Lemma uploads_photos {File : Type} (processImageFile : File -> string)
    (batches : list (list File)) :
  App.userPhotos (uploads processImageFile batches App.init)
  = App.slice_last 9 (map processImageFile (List.concat batches)).
Proof.
  unfold uploads. induction batches as [| batch batches IH] using rev_ind.
  - reflexivity.
  - rewrite fold_left_app. cbn [fold_left].
    rewrite handleUpload_photos.
    + rewrite IH, concat_app, map_app. cbn [List.concat]. rewrite app_nil_r.
      apply slice_last_app.
    + rewrite IH, slice_last_length. lia.
Qed.

(** [slice_last n] drops a prefix (the oldest) and keeps at most [n]. *)
Lemma slice_last_suffix {A : Type} (n : nat) (arr : list A) :
  arr = firstn (List.length arr - n) arr ++ App.slice_last n arr.
Proof. unfold App.slice_last. symmetry. apply firstn_skipn. Qed.

(** C5.  An upload appends its image references in order and keeps the most
    recent nine, dropping the oldest; after any uploads the list is the last
    nine of everything uploaded, in upload order; twelve images uploaded one
    at a time leave the fourth to the twelfth. *)
Theorem upload_fifo :
  forall (File : Type) (processImageFile : File -> string),
    (forall (f : File) (fs : list File) (s : App.t),
       let next := App.userPhotos s ++ map processImageFile (f :: fs) in
       let kept := App.userPhotos (App.handleUpload processImageFile (Some (f :: fs)) s) in
       kept = App.slice_last 9 next
       /\ next = firstn (List.length next - 9) next ++ kept
       /\ List.length kept = Nat.min 9 (List.length next))
    /\ (forall (batches : list (list File)),
          App.userPhotos (uploads processImageFile batches App.init)
          = App.slice_last 9 (map processImageFile (List.concat batches)))
    /\ (forall (f1 f2 f3 f4 f5 f6 f7 f8 f9 f10 f11 f12 : File),
          App.userPhotos
            (uploads processImageFile
               [[f1]; [f2]; [f3]; [f4]; [f5]; [f6]; [f7]; [f8]; [f9]; [f10]; [f11]; [f12]]
               App.init)
          = map processImageFile [f4; f5; f6; f7; f8; f9; f10; f11; f12]).
Proof.
  intros File processImageFile. split; [| split].
  - intros f fs s next kept. subst kept. cbn [App.handleUpload App.userPhotos].
    fold next. split; [reflexivity |]. split.
    + apply slice_last_suffix.
    + apply slice_last_length.
  - apply uploads_photos.
  - intros. reflexivity.
Qed.

(** ** The firework lifetime *)

(** The age of a burst passes 1 exactly when more than 1500 ms have elapsed. *)
Lemma age_over_lifetime (now : Z) (fw : FireworkInstance.t) :
  1 < FireworkInstance.age now fw <-> (1500 < now - FireworkInstance.startTime fw)%Z.
Proof.
  unfold FireworkInstance.age.
  set (d := (now - FireworkInstance.startTime fw)%Z).
  unfold Qlt, Qdiv, Qmult, Qinv, inject_Z. cbn. lia.
Qed.

Lemma useFrame_visible (now : Z) (fw : FireworkInstance.t) :
  FireworkInstance.visible (FireworkInstance.useFrame now fw)
  = FireworkInstance.visible fw
    && (now - FireworkInstance.startTime fw <=? 1500)%Z.
Proof.
  unfold FireworkInstance.useFrame. cbn [FireworkInstance.visible].
  destruct (Qlt_le_dec 1 (FireworkInstance.age now fw)) as [Hold | Hyoung].
  - apply age_over_lifetime in Hold.
    destruct (Z.leb_spec (now - FireworkInstance.startTime fw) 1500); [lia |].
    now rewrite andb_false_r.
  - destruct (Z.leb_spec (now - FireworkInstance.startTime fw) 1500) as [_ | Hgt].
    + now rewrite andb_true_r.
    + apply age_over_lifetime in Hgt. apply Qle_not_lt in Hyoung. contradiction.
Qed.

Lemma frames_startTime (nows : list Z) (fw : FireworkInstance.t) :
  FireworkInstance.startTime (FireworkInstance.frames nows fw)
  = FireworkInstance.startTime fw.
Proof.
  unfold FireworkInstance.frames. revert fw.
  induction nows as [| now nows IH]; intros fw; [reflexivity |].
  cbn [fold_left]. rewrite IH. reflexivity.
Qed.

(** A burst is visible after some frames exactly when it was visible before
    and none of them came more than 1500 ms after its start. *)
Lemma frames_visible (nows : list Z) (fw : FireworkInstance.t) :
  FireworkInstance.visible (FireworkInstance.frames nows fw)
  = FireworkInstance.visible fw
    && forallb (fun now => (now - FireworkInstance.startTime fw <=? 1500)%Z) nows.
Proof.
  unfold FireworkInstance.frames. revert fw.
  induction nows as [| now nows IH]; intros fw.
  - cbn. now rewrite andb_true_r.
  - cbn [fold_left forallb]. rewrite IH, useFrame_visible.
    cbn [FireworkInstance.useFrame FireworkInstance.startTime].
    now rewrite andb_assoc.
Qed.

(** *** The bursts in the scene *)

Lemma lookup_not_in (key : nat) (l : list (nat * FireworkInstance.t)) :
  ~ In key (map fst l) -> FireworksScene.lookup key l = None.
Proof.
  induction l as [| [k fw] l IH]; intros Hnot; [reflexivity |].
  cbn [FireworksScene.lookup]. cbn [map fst In] in Hnot.
  destruct (Nat.eqb_spec k key) as [-> | _].
  - exfalso. apply Hnot. now left.
  - apply IH. intros Hin. apply Hnot. now right.
Qed.

Lemma lookup_in (key : nat) (l : list (nat * FireworkInstance.t)) :
  In key (map fst l) -> exists fw, FireworksScene.lookup key l = Some fw.
Proof.
  induction l as [| [k fw] l IH]; intros Hin; [contradiction |].
  cbn [FireworksScene.lookup]. cbn [map fst In] in Hin.
  destruct (Nat.eqb_spec k key) as [-> | Hne].
  - now exists fw.
  - apply IH. destruct Hin as [E | Hin]; [contradiction | exact Hin].
Qed.

Lemma reconcile_keys now exps old :
  map fst (FireworksScene.reconcile now exps old) = map Fireworks.id exps.
Proof. unfold FireworksScene.reconcile. rewrite map_map. reflexivity. Qed.

(** The burst a render leaves under a key: the one that was there, a new
    one, or none when no entry has the key. *)
Lemma lookup_reconcile key now exps old :
  FireworksScene.lookup key (FireworksScene.reconcile now exps old)
  = if in_dec Nat.eq_dec key (map Fireworks.id exps)
    then Some match FireworksScene.lookup key old with
              | Some fw => fw
              | None => FireworkInstance.mount now
              end
    else None.
Proof.
  induction exps as [| e l IH].
  - reflexivity.
  - cbn [FireworksScene.reconcile map FireworksScene.lookup fst].
    fold (FireworksScene.reconcile now l old).
    destruct (Nat.eqb_spec (Fireworks.id e) key) as [E | Hne].
    + rewrite E.
      destruct (in_dec Nat.eq_dec key (key :: map Fireworks.id l)) as [Hin | Hnot];
        [reflexivity | exfalso; apply Hnot; now left].
    + rewrite IH.
      destruct (in_dec Nat.eq_dec key (map Fireworks.id l)) as [Hin | Hnot];
        destruct (in_dec Nat.eq_dec key (Fireworks.id e :: map Fireworks.id l))
          as [Hin' | Hnot']; try reflexivity.
      * exfalso. apply Hnot'. now right.
      * destruct Hin' as [E | Hin']; contradiction.
Qed.

(** A render that leaves [explosions] as it was leaves every mounted burst
    as it was. *)
Lemma lookup_reconcile_same key now exps old :
  map fst old = map Fireworks.id exps ->
  FireworksScene.lookup key (FireworksScene.reconcile now exps old)
  = FireworksScene.lookup key old.
Proof.
  intros Hkeys. rewrite lookup_reconcile.
  destruct (in_dec Nat.eq_dec key (map Fireworks.id exps)) as [Hin | Hnot].
  - destruct (lookup_in key old) as [fw Hfw]; [rewrite Hkeys; exact Hin |].
    rewrite Hfw. reflexivity.
  - symmetry. apply lookup_not_in. rewrite Hkeys. exact Hnot.
Qed.

(** A launch: three new bursts under the next three keys, all created at the
    time of the render. *)
Lemma launch_mounted (s : FireworksScene.t) (now : Z) (rho : Random.Stream) (c : nat) :
  Fireworks.active (FireworksScene.launcher s) = false ->
  Forall (fun k => (k < Fireworks.idRef (FireworksScene.launcher s))%nat)
         (map fst (FireworksScene.mounted s)) ->
  let n := Fireworks.idRef (FireworksScene.launcher s) in
  let s' := fst (FireworksScene.step s (now, FireworksScene.Render true) rho c) in
  FireworksScene.mounted s'
  = [(n, FireworkInstance.mount now); (S n, FireworkInstance.mount now);
     (S (S n), FireworkInstance.mount now)]
  /\ Fireworks.idRef (FireworksScene.launcher s') = S (S (S n)).
Proof.
  intros Hact Hkeys n s'. subst s'.
  destruct s as [[ex idr act pc] ms]. cbn [FireworksScene.launcher Fireworks.active
    Fireworks.idRef FireworksScene.mounted] in *. subst act n.
  cbv [FireworksScene.step Fireworks.render Fireworks.effect Fireworks.cleanup
       Random.for_loop Random.bind Fireworks.launch_body Random.Math_random Random.ret
       FireworksScene.commit FireworksScene.launcher Fireworks.active Bool.eqb
       fst snd app Fireworks.explosions Fireworks.idRef FireworksScene.mounted].
  cbn [FireworksScene.reconcile map Fireworks.id].
  assert (L : forall k, (idr <= k)%nat -> FireworksScene.lookup k ms = None).
  { intros k Hk. apply lookup_not_in. intros Hin.
    rewrite Forall_forall in Hkeys. specialize (Hkeys k Hin). lia. }
  rewrite !L by lia. split; reflexivity.
Qed.

(** What an event does to the scene: the mounted bursts go on mirroring
    [explosions] and the counter does not go back; the burst under a key the
    counter has passed is run by its frame callback at a frame, and left as
    it is or unmounted by any other event.  No event mounts a burst under
    such a key. *)
Lemma scene_step (key : nat) (s : FireworksScene.t) (ev : Z * FireworksScene.Event)
    (rho : Random.Stream) (c : nat) :
  FireworksScene.consistent s ->
  let s' := fst (FireworksScene.step s ev rho c) in
  FireworksScene.consistent s'
  /\ (Fireworks.idRef (FireworksScene.launcher s)
      <= Fireworks.idRef (FireworksScene.launcher s'))%nat
  /\ ((key < Fireworks.idRef (FireworksScene.launcher s))%nat ->
      FireworksScene.lookup key (FireworksScene.mounted s') = None
      \/ FireworksScene.lookup key (FireworksScene.mounted s')
         = option_map (FireworkInstance.frames (FireworksScene.frameTimes [ev]))
                      (FireworksScene.lookup key (FireworksScene.mounted s))).
Proof.
  intros [Hmirror Hkeys] s'. subst s'.
  destruct ev as [now e]. destruct s as [l ms].
  cbn [FireworksScene.launcher FireworksScene.mounted] in *.
  assert (Hsame : forall l',
             Fireworks.explosions l' = Fireworks.explosions l ->
             Fireworks.idRef l' = Fireworks.idRef l ->
             let s' := FireworksScene.commit now l'
                         {| FireworksScene.launcher := l; FireworksScene.mounted := ms |} in
             FireworksScene.consistent s'
             /\ (Fireworks.idRef l <= Fireworks.idRef (FireworksScene.launcher s'))%nat
             /\ ((key < Fireworks.idRef l)%nat ->
                 FireworksScene.lookup key (FireworksScene.mounted s') = None
                 \/ FireworksScene.lookup key (FireworksScene.mounted s')
                    = option_map (FireworkInstance.frames [])
                                 (FireworksScene.lookup key ms))).
  { intros l' Hex Hid s'. subst s'. unfold FireworksScene.commit, FireworksScene.consistent.
    cbn [FireworksScene.launcher FireworksScene.mounted].
    rewrite Hex, Hid, reconcile_keys, <- Hmirror.
    split; [split; [reflexivity | exact Hkeys] |].
    split; [lia |]. intros _. right.
    rewrite lookup_reconcile_same by exact Hmirror.
    destruct (FireworksScene.lookup key ms); reflexivity. }
  destruct e as [a | |].
  - (* a render *)
    cbn [FireworksScene.step snd fst FireworksScene.frameTimes].
    unfold Random.bind, Fireworks.render. cbn [FireworksScene.launcher].
    destruct (Bool.eqb a (Fireworks.active l)) eqn:Ea.
    + cbn [Random.ret fst]. apply Hsame; reflexivity.
    + destruct a.
      * (* a launch *)
        assert (Hact : Fireworks.active l = false)
          by (destruct (Fireworks.active l); [discriminate | reflexivity]).
        pose proof (launch_mounted
                      {| FireworksScene.launcher := l; FireworksScene.mounted := ms |}
                      now rho c Hact Hkeys) as [Hm Hid].
        cbn [FireworksScene.step snd fst FireworksScene.launcher] in Hm, Hid.
        unfold Random.bind, Fireworks.render in Hm, Hid. rewrite Ea in Hm, Hid.
        match goal with
        | |- FireworksScene.consistent ?x /\ _ => set (s' := x) in *
        end.
        assert (Hmir' : map fst (FireworksScene.mounted s')
                        = map Fireworks.id (Fireworks.explosions (FireworksScene.launcher s'))).
        { subst s'. destruct (Fireworks.effect true (Fireworks.cleanup l) rho c) as [l0 c'].
          cbn [Random.ret fst FireworksScene.commit FireworksScene.mounted
               FireworksScene.launcher]. apply reconcile_keys. }
        split; [split; [exact Hmir' |] |].
        -- rewrite Hm, Hid. cbn [map fst]. repeat constructor; lia.
        -- split; [rewrite Hid; lia |]. intros Hkey. left. rewrite Hm.
           cbn [FireworksScene.lookup].
           set (n := Fireworks.idRef l) in *.
           destruct (Nat.eqb_spec n key); [lia |].
           destruct (Nat.eqb_spec (S n) key); [lia |].
           destruct (Nat.eqb_spec (S (S n)) key); [lia | reflexivity].
      * cbn [Fireworks.effect Random.ret fst]. apply Hsame.
        -- unfold Fireworks.cleanup. destruct (Fireworks.active l); reflexivity.
        -- unfold Fireworks.cleanup. destruct (Fireworks.active l); reflexivity.
  - (* the timeout *)
    cbn [FireworksScene.step snd fst FireworksScene.frameTimes Random.ret
         FireworksScene.launcher].
    unfold Fireworks.timeout. destruct (Fireworks.pendingClear l).
    + unfold FireworksScene.commit, FireworksScene.consistent.
      cbn [FireworksScene.launcher FireworksScene.mounted Fireworks.explosions
           Fireworks.idRef FireworksScene.reconcile map FireworksScene.lookup].
      split; [split; [reflexivity | constructor] |]. split; [lia | now left].
    + apply Hsame; reflexivity.
  - (* a frame *)
    cbn [FireworksScene.step snd fst FireworksScene.frameTimes Random.ret
         FireworksScene.launcher FireworksScene.mounted].
    unfold FireworksScene.consistent. cbn [FireworksScene.launcher FireworksScene.mounted].
    assert (Ek : map fst (map (fun kf : nat * FireworkInstance.t =>
                                 (fst kf, FireworkInstance.useFrame now (snd kf))) ms)
                 = map fst ms).
    { rewrite map_map. apply map_ext. reflexivity. }
    rewrite Ek. split; [split; assumption |]. split; [lia |]. intros _. right.
    clear. induction ms as [| [k fw] ms IH]; [reflexivity |].
    cbn [map fst snd FireworksScene.lookup].
    destruct (k =? key)%nat; [reflexivity | exact IH].
Qed.

Lemma frames_app (xs ys : list Z) (fw : FireworkInstance.t) :
  FireworkInstance.frames (xs ++ ys) fw
  = FireworkInstance.frames ys (FireworkInstance.frames xs fw).
Proof. unfold FireworkInstance.frames. apply fold_left_app. Qed.

Lemma frameTimes_cons ev evs :
  FireworksScene.frameTimes (ev :: evs)
  = FireworksScene.frameTimes [ev] ++ FireworksScene.frameTimes evs.
Proof. destruct ev as [now [a | |]]; reflexivity. Qed.

(** Over any events, a mounted burst is either unmounted or in the state its
    own frame callback leaves it in, run at the times of the frames. *)
Lemma scene_run (key : nat) (evs : list (Z * FireworksScene.Event)) :
  forall (s : FireworksScene.t) (rho : Random.Stream) (c : nat),
    FireworksScene.consistent s ->
    let s' := fst (FireworksScene.run evs s rho c) in
    FireworksScene.consistent s'
    /\ (Fireworks.idRef (FireworksScene.launcher s)
        <= Fireworks.idRef (FireworksScene.launcher s'))%nat
    /\ ((key < Fireworks.idRef (FireworksScene.launcher s))%nat ->
        FireworksScene.lookup key (FireworksScene.mounted s') = None
        \/ FireworksScene.lookup key (FireworksScene.mounted s')
           = option_map (FireworkInstance.frames (FireworksScene.frameTimes evs))
                        (FireworksScene.lookup key (FireworksScene.mounted s))).
Proof.
  induction evs as [| ev evs IH]; intros s rho c Hcons s'; subst s'.
  - cbn. split; [exact Hcons |]. split; [lia |]. intros _. right.
    destruct (FireworksScene.lookup key (FireworksScene.mounted s)); reflexivity.
  - cbn [FireworksScene.run]. unfold Random.bind.
    pose proof (scene_step key s ev rho c Hcons) as (Hcons1 & Hid1 & Hstep).
    cbv zeta in Hcons1, Hid1, Hstep.
    destruct (FireworksScene.step s ev rho c) as [s1 c1]. cbn [fst] in *.
    pose proof (IH s1 rho c1 Hcons1) as (Hcons2 & Hid2 & Hrun).
    cbv zeta in Hcons2, Hid2, Hrun.
    split; [exact Hcons2 |]. split; [lia |]. intros Hkey.
    destruct (Hrun ltac:(lia)) as [Hnone | Hsome]; [now left |].
    rewrite Hsome.
    destruct (Hstep Hkey) as [Hnone1 | Hsome1].
    + left. rewrite Hnone1. reflexivity.
    + right. rewrite (frameTimes_cons ev evs), Hsome1.
      destruct (FireworksScene.lookup key (FireworksScene.mounted s)) as [fw |];
        [| reflexivity].
      cbn [option_map]. rewrite frames_app. reflexivity.
Qed.

Lemma scene_mount_consistent (now : Z) (a : bool) (rho : Random.Stream) (c : nat) :
  FireworksScene.consistent (fst (FireworksScene.mount now a rho c)).
Proof.
  destruct a;
    cbv [FireworksScene.mount Fireworks.mount Fireworks.effect
         Random.for_loop Random.bind Fireworks.launch_body Random.Math_random Random.ret
         FireworksScene.commit FireworksScene.launcher fst snd app
         Fireworks.explosions Fireworks.idRef FireworksScene.mounted
         FireworksScene.consistent FireworksScene.reconcile map Fireworks.id];
    split; try reflexivity; repeat constructor.
Qed.

(** A burst that is not on screen one second after its creation.  The
    scene is mounted at time 0; a click at 1000 ms launches the bursts 0, 1 and 2, created at T0 = 1000 and on
    screen at the frame of 1016 ms; the trigger is reset at 1100 ms; a
    second click at 1500 ms launches three new bursts, and
    [setExplosions(newExps)] replaces the list: at the frame of
    T0 + 1.0 s = 2000 ms burst 0 is no longer mounted, and not on screen. *)
Lemma firework_unmounted_by_next_launch :
  let rho : Random.Stream := fun _ => 1 # 2 in
  let scene evs :=
    Random.run (s <- FireworksScene.mount 0 false ;; FireworksScene.run evs s) rho in
  let launched := [(1000, FireworksScene.Render true); (1016, FireworksScene.Frame)]%Z in
  let relaunched := [(1100, FireworksScene.Render false);
                     (1500, FireworksScene.Render true);
                     (2000, FireworksScene.Frame)]%Z in
  option_map FireworkInstance.startTime
    (FireworksScene.lookup 0 (FireworksScene.mounted (scene launched))) = Some 1000%Z
  /\ FireworksScene.drawn 0 (scene launched) = true
  /\ FireworksScene.lookup 0 (FireworksScene.mounted (scene (launched ++ relaunched))) = None
  /\ FireworksScene.drawn 0 (scene (launched ++ relaunched)) = false.
Proof. vm_compute. repeat split; reflexivity. Qed.

(** C6 (as the code has it).  The age of a burst at a frame is
    (now - T0) / 1500 ms, and
    it exceeds 1 exactly when the frame comes more than 1500 ms after T0.
    For as long as it stays mounted, a burst created at T0 is visible after
    some frames exactly when none of them came more than 1500 ms after T0:
    it is visible at a frame rendered at T0 + 1.0 s (the frames before it
    being earlier), and hidden at and after any frame rendered later than
    T0 + 1.5 s, so at T0 + 1.6 s.  In the scene a launch mounts its three
    bursts with T0 the time of the launch, and from then on a burst is
    either unmounted (by the next launch, or by the timeout of 2 s) or in
    the state its own frame callback leaves it in: nothing else hides it. *)
Theorem firework_self_terminates :
  forall (T0 : Z),
    (forall (now : Z) (earlier : list Z),
       FireworkInstance.uTime
         (FireworkInstance.frames (earlier ++ [now]) (FireworkInstance.mount T0))
       == inject_Z (now - T0) / 1500)
    /\ (forall (now : Z),
          1 < FireworkInstance.age now (FireworkInstance.mount T0)
          <-> (T0 + 1500 < now)%Z)
    /\ (forall (nows : list Z),
          FireworkInstance.visible
            (FireworkInstance.frames nows (FireworkInstance.mount T0)) = true
          <-> Forall (fun now => (now <= T0 + 1500)%Z) nows)
    /\ (forall (earlier : list Z),
          Forall (fun t => (t <= T0 + 1000)%Z) earlier ->
          FireworkInstance.visible
            (FireworkInstance.frames (earlier ++ [T0 + 1000]%Z) (FireworkInstance.mount T0))
          = true)
    /\ (forall (earlier later : list Z) (now : Z),
          (T0 + 1500 < now)%Z ->
          FireworkInstance.visible
            (FireworkInstance.frames (earlier ++ now :: later) (FireworkInstance.mount T0))
          = false)
    /\ (forall (t0 : Z) (a : bool) (before after : list (Z * FireworksScene.Event))
               (rho : Random.Stream),
          let s1 := (s <- FireworksScene.mount t0 a ;; FireworksScene.run before s)
                      rho 0%nat in
          Fireworks.active (FireworksScene.launcher (fst s1)) = false ->
          let s2 := FireworksScene.step (fst s1) (T0, FireworksScene.Render true)
                      rho (snd s1) in
          let s3 := fst (FireworksScene.run after (fst s2) rho (snd s2)) in
          forall key,
            In key (map fst (FireworksScene.mounted (fst s2))) ->
            FireworksScene.lookup key (FireworksScene.mounted (fst s2))
            = Some (FireworkInstance.mount T0)
            /\ (FireworksScene.lookup key (FireworksScene.mounted s3) = None
                \/ FireworksScene.lookup key (FireworksScene.mounted s3)
                   = Some (FireworkInstance.frames (FireworksScene.frameTimes after)
                             (FireworkInstance.mount T0)))).
Proof.
  intros T0. split; [| split; [| split; [| split; [| split]]]].
  - intros now earlier. unfold FireworkInstance.frames.
    rewrite fold_left_app. cbn [fold_left FireworkInstance.useFrame FireworkInstance.uTime].
    unfold FireworkInstance.age.
    fold (FireworkInstance.frames earlier (FireworkInstance.mount T0)).
    rewrite frames_startTime. reflexivity.
  - intros now. rewrite age_over_lifetime. cbn [FireworkInstance.mount
      FireworkInstance.startTime]. lia.
  - intros nows. rewrite frames_visible.
    cbn [FireworkInstance.mount FireworkInstance.visible FireworkInstance.startTime andb].
    rewrite forallb_forall, Forall_forall.
    split; intros H t Ht; specialize (H t Ht).
    + apply Z.leb_le in H. lia.
    + apply Z.leb_le. lia.
  - intros earlier Hearlier. rewrite frames_visible.
    cbn [FireworkInstance.mount FireworkInstance.visible FireworkInstance.startTime andb].
    rewrite forallb_app. apply andb_true_intro. split.
    + apply forallb_forall. intros t Ht.
      rewrite Forall_forall in Hearlier. specialize (Hearlier t Ht).
      apply Z.leb_le. lia.
    + cbn [forallb]. rewrite andb_true_r. apply Z.leb_le. lia.
  - intros earlier later now Hnow. rewrite frames_visible.
    cbn [FireworkInstance.mount FireworkInstance.visible FireworkInstance.startTime andb].
    rewrite forallb_app. cbn [forallb].
    replace (now - T0 <=? 1500)%Z with false by (symmetry; apply Z.leb_gt; lia).
    cbn [andb]. apply andb_false_r.
  - intros t0 a before after rho s1 Hact s2 s3 key Hin.
    assert (Hcons1 : FireworksScene.consistent (fst s1)).
    { subst s1. unfold Random.bind.
      pose proof (scene_mount_consistent t0 a rho 0%nat) as Hm.
      destruct (FireworksScene.mount t0 a rho 0%nat) as [s0 c0]. cbn [fst] in Hm.
      apply (scene_run 0%nat before s0 rho c0 Hm). }
    clearbody s1. destruct s1 as [s1 c1]. cbn [fst snd] in *.
    destruct Hcons1 as [Hmirror Hkeys].
    pose proof (launch_mounted s1 T0 rho c1 Hact Hkeys) as [Hm Hid].
    cbv zeta in Hm, Hid.
    pose proof (scene_step key s1 (T0, FireworksScene.Render true) rho c1
                  (conj Hmirror Hkeys)) as (Hcons2 & _ & _).
    cbv zeta in Hcons2.
    fold s2 in Hm, Hid, Hcons2. clearbody s2. destruct s2 as [s2 c2]. cbn [fst snd] in *.
    assert (Hlook : FireworksScene.lookup key (FireworksScene.mounted s2)
                    = Some (FireworkInstance.mount T0)).
    { rewrite Hm in Hin |- *. cbn [map fst In] in Hin. cbn [FireworksScene.lookup].
      set (n := Fireworks.idRef (FireworksScene.launcher s1)) in *.
      destruct Hin as [E | [E | [E | []]]]; subst key.
      - rewrite Nat.eqb_refl. reflexivity.
      - destruct (Nat.eqb_spec n (S n)); [lia |]. rewrite Nat.eqb_refl. reflexivity.
      - destruct (Nat.eqb_spec n (S (S n))); [lia |].
        destruct (Nat.eqb_spec (S n) (S (S n))); [lia |].
        rewrite Nat.eqb_refl. reflexivity. }
    split; [exact Hlook |].
    assert (Hkey : (key < Fireworks.idRef (FireworksScene.launcher s2))%nat).
    { destruct Hcons2 as [_ Hk2]. rewrite Forall_forall in Hk2. apply Hk2. exact Hin. }
    pose proof (scene_run key after s2 rho c2 Hcons2) as (_ & _ & Hrun).
    cbv zeta in Hrun. fold s3 in Hrun.
    destruct (Hrun Hkey) as [Hnone | Hsome]; [now left |].
    right. rewrite Hsome, Hlook. reflexivity.
Qed.

Lemma firework_self_terminates_witness :
  FireworkInstance.visible
    (FireworkInstance.frames ([16; 500; 983] ++ [0 + 1000])%Z (FireworkInstance.mount 0))
  = true
  /\ FireworkInstance.visible
       (FireworkInstance.frames ([16; 1000] ++ 1501 :: [1616])%Z (FireworkInstance.mount 0))
     = false
  /\ FireworkInstance.visible
       (FireworkInstance.frames [16; 1000; 1500]%Z (FireworkInstance.mount 0))
     = true.
Proof.
  destruct (firework_self_terminates 0) as (_ & _ & Hexact & Hyoung & Hold & _).
  split; [| split].
  - apply Hyoung. repeat constructor; lia.
  - apply Hold. lia.
  - apply Hexact. repeat constructor; lia.
Defined.

(** * Further properties of the source *)

(** ** Rationals *)

Lemma num_nonneg (n : nat) : 0 <= num n.
Proof. unfold num. change 0 with (inject_Z 0). rewrite <- Zle_Qle. lia. Qed.

Lemma num_lt (i j : nat) : (i < j)%nat -> num i < num j.
Proof. intros H. unfold num. rewrite <- Zlt_Qlt. lia. Qed.

Lemma num_mult (i j : nat) : num (i * j) == num i * num j.
Proof. unfold num. rewrite Nat2Z.inj_mul, inject_Z_mult. reflexivity. Qed.

Lemma Qfloor_unique (q : Q) (z : Z) :
  inject_Z z <= q -> q < inject_Z (z + 1) -> Qfloor q = z.
Proof.
  intros Hlo Hhi.
  pose proof (Qfloor_le q) as Flo. pose proof (Qlt_floor q) as Fhi.
  assert (H1 : (Qfloor q < z + 1)%Z).
  { rewrite Zlt_Qlt. apply Qle_lt_trans with q; assumption. }
  assert (H2 : (z < Qfloor q + 1)%Z).
  { rewrite Zlt_Qlt. apply Qle_lt_trans with q; assumption. }
  lia.
Qed.

(** The factor [maxSize / side] by which a side above [maxSize] is scaled. *)
Lemma shrink_factor (side : Q) :
  ImageFile.maxSize < side ->
  0 < ImageFile.maxSize / side
  /\ ImageFile.maxSize / side < 1
  /\ side * (ImageFile.maxSize / side) == ImageFile.maxSize.
Proof.
  unfold ImageFile.maxSize. intros H.
  assert (Hpos : 0 < side) by lra.
  split; [apply Qlt_shift_div_l; lra |].
  split; [apply Qlt_shift_div_r; lra |].
  field. lra.
Qed.

(** ** The size an uploaded image is drawn at *)

(** X1.  Whatever the size of the image, neither side of the drawn size
    exceeds 2048, neither side is enlarged, and the canvas is at most
    2048 x 2048 pixels. *)
Theorem bakedSize_within_maxSize :
  forall (imgWidth imgHeight : nat),
    let size := ImageFile.bakedSize imgWidth imgHeight in
    let canvas := ImageFile.canvasSize imgWidth imgHeight in
    (0 <= fst size /\ fst size <= 2048 /\ fst size <= num imgWidth)
    /\ (0 <= snd size /\ snd size <= 2048 /\ snd size <= num imgHeight)
    /\ (0 <= fst canvas <= 2048)%Z
    /\ (0 <= snd canvas <= 2048)%Z.
Proof.
  intros w h size canvas.
  assert (Hsize : (0 <= fst size /\ fst size <= 2048 /\ fst size <= num w)
                  /\ (0 <= snd size /\ snd size <= 2048 /\ snd size <= num h)).
  { subst size. unfold ImageFile.bakedSize.
    pose proof (num_nonneg w) as Hw. pose proof (num_nonneg h) as Hh.
    destruct (Qlt_le_dec (num h) (num w)) as [Hwide | Htall].
    - destruct (Qlt_le_dec ImageFile.maxSize (num w)) as [Hbig | Hsmall];
        cbn [fst snd].
      + destruct (shrink_factor (num w) Hbig) as (F0 & F1 & FE).
        unfold ImageFile.maxSize in *.
        set (r := 2048 / num w) in *. clearbody r.
        repeat split; try lra; nra.
      + unfold ImageFile.maxSize in *. repeat split; lra.
    - destruct (Qlt_le_dec ImageFile.maxSize (num h)) as [Hbig | Hsmall];
        cbn [fst snd].
      + destruct (shrink_factor (num h) Hbig) as (F0 & F1 & FE).
        unfold ImageFile.maxSize in *.
        set (r := 2048 / num h) in *. clearbody r.
        repeat split; try lra; nra.
      + unfold ImageFile.maxSize in *. repeat split; lra. }
  split; [apply Hsize |]. split; [apply Hsize |].
  destruct Hsize as ((A0 & A1 & _) & (B0 & B1 & _)).
  subst canvas. unfold ImageFile.canvasSize. fold size.
  destruct size as [sw sh]. cbn [fst snd] in *.
  split; split.
  - change 0%Z with (Qfloor 0). apply Qfloor_resp_le. exact A0.
  - change 2048%Z with (Qfloor 2048). apply Qfloor_resp_le. exact A1.
  - change 0%Z with (Qfloor 0). apply Qfloor_resp_le. exact B0.
  - change 2048%Z with (Qfloor 2048). apply Qfloor_resp_le. exact B1.
Qed.

(** X2.  An image with both sides at most 2048 is drawn at its own size; an
    image with a side above 2048 is drawn with its longer side at exactly
    2048. *)
Theorem bakedSize_longer_side :
  forall (imgWidth imgHeight : nat),
    let size := ImageFile.bakedSize imgWidth imgHeight in
    ((imgWidth <= 2048)%nat -> (imgHeight <= 2048)%nat ->
     size = (num imgWidth, num imgHeight))
    /\ ((2048 < imgWidth)%nat -> (imgHeight < imgWidth)%nat -> fst size = 2048)
    /\ ((2048 < imgHeight)%nat -> (imgWidth <= imgHeight)%nat -> snd size = 2048).
Proof.
  intros w h size. subst size. unfold ImageFile.bakedSize.
  assert (E2048 : num 2048 == 2048) by reflexivity.
  split; [| split].
  - intros Hw Hh.
    pose proof (num_le w 2048 Hw) as Hw'. pose proof (num_le h 2048 Hh) as Hh'.
    unfold ImageFile.maxSize.
    destruct (Qlt_le_dec (num h) (num w)).
    + destruct (Qlt_le_dec 2048 (num w)); [lra | reflexivity].
    + destruct (Qlt_le_dec 2048 (num h)); [lra | reflexivity].
  - intros Hw Hwide.
    pose proof (num_lt 2048 w Hw) as Hw'. pose proof (num_lt h w Hwide) as Hwide'.
    unfold ImageFile.maxSize.
    destruct (Qlt_le_dec (num h) (num w)); [| lra].
    destruct (Qlt_le_dec 2048 (num w)); [reflexivity | lra].
  - intros Hh Htall.
    pose proof (num_lt 2048 h Hh) as Hh'. pose proof (num_le w h Htall) as Htall'.
    unfold ImageFile.maxSize.
    destruct (Qlt_le_dec (num h) (num w)); [lra |].
    destruct (Qlt_le_dec 2048 (num h)); [reflexivity | lra].
Qed.

Lemma bakedSize_longer_side_witness :
  ImageFile.bakedSize 640 480 = (num 640, num 480)
  /\ fst (ImageFile.bakedSize 4096 3072) = 2048
  /\ snd (ImageFile.bakedSize 3000 4000) = 2048.
Proof.
  split; [| split].
  - apply (bakedSize_longer_side 640 480); lia.
  - apply (bakedSize_longer_side 4096 3072); lia.
  - apply (bakedSize_longer_side 3000 4000); lia.
Defined.

(** X3.  An image (of at least one pixel each way) more than 2048 times as
    wide as it is high gets a canvas of height 0, and one more than 2048 times
    as high as wide a canvas of width 0: the scaled side is below one pixel
    and the canvas truncates it. *)
Theorem canvasSize_degenerate :
  forall (imgWidth imgHeight : nat),
    ((1 <= imgHeight)%nat -> (2048 * imgHeight < imgWidth)%nat ->
     ImageFile.canvasSize imgWidth imgHeight = (2048%Z, 0%Z))
    /\ ((1 <= imgWidth)%nat -> (2048 * imgWidth < imgHeight)%nat ->
        ImageFile.canvasSize imgWidth imgHeight = (0%Z, 2048%Z)).
Proof.
  intros w h.
  assert (E2048 : num 2048 == 2048) by reflexivity.
  assert (E1 : num 1 == 1) by reflexivity.
  split; intros Hpos Hthin.
  - pose proof (num_lt _ _ Hthin) as Hq. rewrite num_mult, E2048 in Hq.
    pose proof (num_le _ _ Hpos) as Hh1. rewrite E1 in Hh1.
    unfold ImageFile.canvasSize, ImageFile.bakedSize, ImageFile.maxSize.
    destruct (Qlt_le_dec (num h) (num w)) as [_ | ?]; [| lra].
    destruct (Qlt_le_dec 2048 (num w)) as [Hbig | ?]; [| lra].
    f_equal. apply Qfloor_unique.
    + apply Qmult_le_0_compat; [lra |]. apply Qle_shift_div_l; lra.
    + assert (E : num h * (2048 / num w) == (2048 * num h) / num w) by (field; lra).
      rewrite E. apply Qlt_shift_div_r; [lra |].
      change (inject_Z (0 + 1)) with 1. clear E1 E2048. lra.
  - pose proof (num_lt _ _ Hthin) as Hq. rewrite num_mult, E2048 in Hq.
    pose proof (num_le _ _ Hpos) as Hw1. rewrite E1 in Hw1.
    unfold ImageFile.canvasSize, ImageFile.bakedSize, ImageFile.maxSize.
    destruct (Qlt_le_dec (num h) (num w)) as [? | _]; [lra |].
    destruct (Qlt_le_dec 2048 (num h)) as [Hbig | ?]; [| lra].
    f_equal. apply Qfloor_unique.
    + apply Qmult_le_0_compat; [lra |]. apply Qle_shift_div_l; lra.
    + assert (E : num w * (2048 / num h) == (2048 * num w) / num h) by (field; lra).
      rewrite E. apply Qlt_shift_div_r; [lra |].
      change (inject_Z (0 + 1)) with 1. clear E1 E2048. lra.
Qed.

Lemma canvasSize_degenerate_witness :
  ImageFile.canvasSize 5000 2 = (2048%Z, 0%Z)
  /\ ImageFile.canvasSize 1 3000 = (0%Z, 2048%Z).
Proof.
  split.
  - apply (canvasSize_degenerate 5000 2); lia.
  - apply (canvasSize_degenerate 1 3000); lia.
Defined.

(** ** The interpolator over many frames *)

(** The foliage frames rendered at the given (elapsed time, mode) pairs. *)
Definition foliageFrames (frames : list (Q * Q)) (s : FoliageSystem.t) : FoliageSystem.t :=
  fold_left (fun s f => FoliageSystem.useFrame (fst f) (snd f) s) frames s.

(** The ornaments' progress over frames rendered with the given modes. *)
Definition ornamentFrames (d : list OrnamentSystem.Item) (modes : list Q) (p : Q) : Q :=
  fold_left (fun p mode => fst (OrnamentSystem.useFrame mode d p)) modes p.

(** The progress of a photo over frames rendered with the given modes. *)
Definition polaroidFrames (treePos scatterPos : THREE.Vector3) (modes : list Q) (p : Q) : Q :=
  fold_left (fun p mode => fst (Polaroid.useFrame mode treePos scatterPos p)) modes p.

Definition unit_interval (q : Q) : Prop := 0 <= q /\ q <= 1.

Lemma lerp_unit_interval (p m k : Q) :
  unit_interval k -> unit_interval p -> unit_interval m ->
  unit_interval (THREE.MathUtils.lerp p m k).
Proof.
  unfold unit_interval, THREE.MathUtils.lerp. intros [Hk0 Hk1] [Hp0 Hp1] [Hm0 Hm1].
  split; nra.
Qed.

Lemma fold_lerp_unit_interval (k : Q) (modes : list Q) (p : Q) :
  unit_interval k -> unit_interval p -> Forall unit_interval modes ->
  unit_interval (fold_left (fun p m => THREE.MathUtils.lerp p m k) modes p).
Proof.
  intros Hk. revert p. induction modes as [| m modes IH]; intros p Hp Hm.
  - exact Hp.
  - cbn [fold_left]. inversion Hm as [| ? ? Hm1 Hm2]; subst.
    apply IH; [| exact Hm2]. apply lerp_unit_interval; assumption.
Qed.

Lemma foliageFrames_progress (frames : list (Q * Q)) (s : FoliageSystem.t) :
  FoliageSystem.uProgress (foliageFrames frames s)
  = fold_left (fun p m => THREE.MathUtils.lerp p m (2 # 100)) (map snd frames)
      (FoliageSystem.uProgress s).
Proof.
  unfold foliageFrames. revert s.
  induction frames as [| f frames IH]; intros s; [reflexivity |].
  cbn [fold_left map]. rewrite IH. reflexivity.
Qed.

(** X4.  Whatever the frames and however the mode is switched between 0 and 1
    (or held anywhere between), the progress of each group stays between 0
    and 1. *)
Theorem progress_stays_in_unit_interval :
  (forall (frames : list (Q * Q)),
     Forall (fun f => unit_interval (snd f)) frames ->
     unit_interval (FoliageSystem.uProgress (foliageFrames frames FoliageSystem.init)))
  /\ (forall (d : list OrnamentSystem.Item) (modes : list Q),
        Forall unit_interval modes -> unit_interval (ornamentFrames d modes 0))
  /\ (forall (treePos scatterPos : THREE.Vector3) (modes : list Q),
        Forall unit_interval modes ->
        unit_interval (polaroidFrames treePos scatterPos modes 0)).
Proof.
  assert (H0 : unit_interval 0) by (split; discriminate).
  split; [| split].
  - intros frames Hm. rewrite foliageFrames_progress.
    apply fold_lerp_unit_interval; [split; discriminate | exact H0 |].
    apply Forall_map. exact Hm.
  - intros d modes Hm.
    apply (fold_lerp_unit_interval (4 # 100)); [split; discriminate | exact H0 | exact Hm].
  - intros treePos scatterPos modes Hm.
    apply (fold_lerp_unit_interval (3 # 100)); [split; discriminate | exact H0 | exact Hm].
Qed.

Lemma progress_stays_in_unit_interval_witness :
  unit_interval
    (FoliageSystem.uProgress (foliageFrames [(0, 1); (1 # 60, 1); (2 # 60, 0)]
                                FoliageSystem.init))
  /\ unit_interval (ornamentFrames [] [1; 0; 1] 0)
  /\ unit_interval (polaroidFrames (THREE.Vec3 0 0 0) (THREE.Vec3 1 1 1) [1; 1] 0).
Proof.
  destruct progress_stays_in_unit_interval as (Hf & Ho & Hp).
  split; [| split].
  - apply Hf. repeat constructor; discriminate.
  - apply Ho. repeat constructor; discriminate.
  - apply Hp. repeat constructor; discriminate.
Defined.

Lemma lerp_towards_one (p k : Q) :
  0 < k -> k < 1 -> p < 1 ->
  p <= THREE.MathUtils.lerp p 1 k /\ THREE.MathUtils.lerp p 1 k < 1.
Proof. unfold THREE.MathUtils.lerp. intros. split; nra. Qed.

Lemma lerp_towards_zero (p k : Q) :
  0 < k -> k < 1 -> 0 < p ->
  0 < THREE.MathUtils.lerp p 0 k /\ THREE.MathUtils.lerp p 0 k <= p.
Proof. unfold THREE.MathUtils.lerp. intros. split; nra. Qed.

Lemma iter_lerp_towards_one (k : Q) (n : nat) (p : Q) :
  0 < k -> k < 1 -> p < 1 ->
  Nat.iter n (fun p => THREE.MathUtils.lerp p 1 k) p < 1.
Proof.
  intros Hk0 Hk1 Hp. induction n as [| n IH]; [exact Hp |].
  rewrite Nat.iter_succ. apply lerp_towards_one; assumption.
Qed.

Lemma iter_lerp_towards_zero (k : Q) (n : nat) (p : Q) :
  0 < k -> k < 1 -> 0 < p ->
  0 < Nat.iter n (fun p => THREE.MathUtils.lerp p 0 k) p.
Proof.
  intros Hk0 Hk1 Hp. induction n as [| n IH]; [exact Hp |].
  rewrite Nat.iter_succ. apply lerp_towards_zero; assumption.
Qed.

(** X5.  With the mode held at 1 the progress of each group never falls and
    stays below 1; with the mode held at 0 it never rises and stays above 0:
    a transition never turns back, never overshoots and is never complete
    after finitely many frames. *)
Theorem progress_approaches_without_reaching :
  (forall (clock : nat -> Q) (s : FoliageSystem.t) (n : nat),
     let P mode i := FoliageSystem.uProgress (FoliageSystem.frames clock mode i s) in
     (FoliageSystem.uProgress s < 1 -> P 1 n <= P 1 (S n) /\ P 1 (S n) < 1)
     /\ (0 < FoliageSystem.uProgress s -> 0 < P 0 (S n) /\ P 0 (S n) <= P 0 n))
  /\ (forall (d : list OrnamentSystem.Item) (p : Q) (n : nat),
        let P mode i := Nat.iter i (fun p => fst (OrnamentSystem.useFrame mode d p)) p in
        (p < 1 -> P 1 n <= P 1 (S n) /\ P 1 (S n) < 1)
        /\ (0 < p -> 0 < P 0 (S n) /\ P 0 (S n) <= P 0 n))
  /\ (forall (treePos scatterPos : THREE.Vector3) (p : Q) (n : nat),
        let P mode i :=
          Nat.iter i (fun p => fst (Polaroid.useFrame mode treePos scatterPos p)) p in
        (p < 1 -> P 1 n <= P 1 (S n) /\ P 1 (S n) < 1)
        /\ (0 < p -> 0 < P 0 (S n) /\ P 0 (S n) <= P 0 n)).
Proof.
  split; [| split].
  - intros clock s n P. subst P. cbv beta.
    rewrite !foliage_frames_progress, !Nat.iter_succ. split; intros Hp.
    + apply (lerp_towards_one _ (2 # 100)); [reflexivity | reflexivity |].
      apply (iter_lerp_towards_one (2 # 100)); [reflexivity | reflexivity | exact Hp].
    + apply (lerp_towards_zero _ (2 # 100)); [reflexivity | reflexivity |].
      apply (iter_lerp_towards_zero (2 # 100)); [reflexivity | reflexivity | exact Hp].
  - intros d p n P. subst P. cbv beta. rewrite !Nat.iter_succ. split; intros Hp.
    + apply (lerp_towards_one _ (4 # 100)); [reflexivity | reflexivity |].
      apply (iter_lerp_towards_one (4 # 100)); [reflexivity | reflexivity | exact Hp].
    + apply (lerp_towards_zero _ (4 # 100)); [reflexivity | reflexivity |].
      apply (iter_lerp_towards_zero (4 # 100)); [reflexivity | reflexivity | exact Hp].
  - intros treePos scatterPos p n P. subst P. cbv beta. rewrite !Nat.iter_succ.
    split; intros Hp.
    + apply (lerp_towards_one _ (3 # 100)); [reflexivity | reflexivity |].
      apply (iter_lerp_towards_one (3 # 100)); [reflexivity | reflexivity | exact Hp].
    + apply (lerp_towards_zero _ (3 # 100)); [reflexivity | reflexivity |].
      apply (iter_lerp_towards_zero (3 # 100)); [reflexivity | reflexivity | exact Hp].
Qed.

Lemma progress_approaches_without_reaching_witness :
  (FoliageSystem.uProgress (FoliageSystem.frames (fun _ => 0) 1 3 FoliageSystem.init)
   <= FoliageSystem.uProgress (FoliageSystem.frames (fun _ => 0) 1 4 FoliageSystem.init)
   /\ FoliageSystem.uProgress (FoliageSystem.frames (fun _ => 0) 1 4 FoliageSystem.init) < 1)
  /\ (0 < Nat.iter 3 (fun p => fst (OrnamentSystem.useFrame 0 [] p)) (1 # 2)
      /\ Nat.iter 3 (fun p => fst (OrnamentSystem.useFrame 0 [] p)) (1 # 2)
         <= Nat.iter 2 (fun p => fst (OrnamentSystem.useFrame 0 [] p)) (1 # 2)).
Proof.
  destruct progress_approaches_without_reaching as (Hf & Ho & _).
  split.
  - apply (Hf (fun _ => 0) FoliageSystem.init 3%nat). reflexivity.
  - apply (Ho [] (1 # 2) 2%nat). reflexivity.
Defined.

(** ** Blended positions *)

(** [v] lies between [a] and [b], whichever is the larger. *)
Definition between (a v b : Q) : Prop := (a <= v /\ v <= b) \/ (b <= v /\ v <= a).

(** [v] lies in the box spanned by [v1] and [v2]. *)
Definition inBox (v1 v v2 : THREE.Vector3) : Prop :=
  between (THREE.x v1) (THREE.x v) (THREE.x v2)
  /\ between (THREE.y v1) (THREE.y v) (THREE.y v2)
  /\ between (THREE.z v1) (THREE.z v) (THREE.z v2).

Lemma easeOutCubic_unit_interval (p : Q) :
  unit_interval p -> unit_interval (easeOutCubic p).
Proof.
  intros [H0 H1]. split.
  - apply Qle_trans with (easeOutCubic 0); [discriminate |].
    apply easeOutCubic_monotone; [apply Qle_refl | exact H0 | exact H1].
  - apply Qle_trans with (easeOutCubic 1); [| discriminate].
    apply easeOutCubic_monotone; [exact H0 | exact H1 | apply Qle_refl].
Qed.

Lemma between_blend (a b t : Q) :
  unit_interval t -> between a (a + (b - a) * t) b.
Proof.
  intros [H0 H1]. unfold between.
  destruct (Qlt_le_dec a b) as [Hab | Hba]; [left | right]; split; nra.
Qed.

Lemma lerpVectors_inBox (v1 v2 : THREE.Vector3) (t : Q) :
  unit_interval t -> inBox v1 (THREE.lerpVectors v1 v2 t) v2.
Proof.
  intros Ht. unfold inBox, THREE.lerpVectors. cbn [THREE.x THREE.y THREE.z].
  repeat split; apply between_blend; exact Ht.
Qed.

(** X6.  While the progress and the mode are between 0 and 1, every ornament
    and every photo is placed, component by component, between its scatter
    position and its tree position. *)
Theorem blended_positions_between_scatter_and_tree :
  (forall (mode : Q) (d : list OrnamentSystem.Item) (p : Q),
     unit_interval mode -> unit_interval p ->
     Forall2 (fun item v => inBox (OrnamentSystem.scatterPos item) v
                              (OrnamentSystem.treePos item))
             d (snd (OrnamentSystem.useFrame mode d p)))
  /\ (forall (mode : Q) (treePos scatterPos : THREE.Vector3) (p : Q),
        unit_interval mode -> unit_interval p ->
        inBox scatterPos (snd (Polaroid.useFrame mode treePos scatterPos p)) treePos).
Proof.
  assert (Hk4 : unit_interval (4 # 100)) by (split; discriminate).
  assert (Hk3 : unit_interval (3 # 100)) by (split; discriminate).
  split.
  - intros mode d p Hm Hp. unfold OrnamentSystem.useFrame. cbn [snd].
    pose proof (easeOutCubic_unit_interval _
                  (lerp_unit_interval p mode (4 # 100) Hk4 Hp Hm)) as Ht.
    unfold easeOutCubic in Ht.
    induction d as [| item d IH]; cbn [map]; constructor.
    + apply lerpVectors_inBox. exact Ht.
    + exact IH.
  - intros mode treePos scatterPos p Hm Hp. unfold Polaroid.useFrame. cbn [snd].
    apply lerpVectors_inBox.
    apply (easeOutCubic_unit_interval _
             (lerp_unit_interval p mode (3 # 100) Hk3 Hp Hm)).
Qed.

Lemma blended_positions_between_scatter_and_tree_witness :
  inBox (THREE.Vec3 10 (-3) 25)
    (snd (Polaroid.useFrame 1 (THREE.Vec3 0 2 8) (THREE.Vec3 10 (-3) 25) (1 # 2)))
    (THREE.Vec3 0 2 8).
Proof.
  destruct blended_positions_between_scatter_and_tree as (_ & Hp).
  apply Hp; split; discriminate.
Defined.

(** ** The foliage shader *)

Lemma mix_between (a b t : Q) :
  unit_interval t -> between a (FoliageShaderMaterial.mix a b t) b.
Proof.
  intros [H0 H1]. unfold between, FoliageShaderMaterial.mix.
  destruct (Qlt_le_dec a b) as [Hab | Hba]; [left | right]; split; nra.
Qed.

(** X7.  For a sine between -1 and 1 and a progress between 0 and 1, the
    foliage shader puts a particle at a height and depth between those of its
    scatter and tree positions, and moves it sideways from the blend by at
    most 0.08; at progress 1 the particle is at the height and depth of its
    tree position and within 0.032 of it sideways; at progress 0 at the height
    and depth of its scatter position.  Its opacity is between 0.6 and 1. *)
Theorem foliage_vertex_position :
  forall (M : MathLib) (uTime uProgress aRandom : Q)
         (aPosTree aPosScatter : THREE.Vector3),
    (forall a, -1 <= Math_sin a /\ Math_sin a <= 1) ->
    unit_interval uProgress ->
    let v := FoliageShaderMaterial.vertexShader uTime uProgress aPosTree aPosScatter
               aRandom in
    let pos := FoliageShaderMaterial.pos v in
    let blendX := FoliageShaderMaterial.mix (THREE.x aPosScatter) (THREE.x aPosTree)
                    (easeOutCubic uProgress) in
    between (THREE.y aPosScatter) (THREE.y pos) (THREE.y aPosTree)
    /\ between (THREE.z aPosScatter) (THREE.z pos) (THREE.z aPosTree)
    /\ (- (8 # 100) <= THREE.x pos - blendX /\ THREE.x pos - blendX <= 8 # 100)
    /\ (uProgress == 1 ->
        THREE.y pos == THREE.y aPosTree /\ THREE.z pos == THREE.z aPosTree
        /\ - (32 # 1000) <= THREE.x pos - THREE.x aPosTree
        /\ THREE.x pos - THREE.x aPosTree <= 32 # 1000)
    /\ (uProgress == 0 ->
        THREE.y pos == THREE.y aPosScatter /\ THREE.z pos == THREE.z aPosScatter)
    /\ ((6 # 10) <= FoliageShaderMaterial.vAlpha v /\ FoliageShaderMaterial.vAlpha v <= 1).
Proof.
  intros M uTime uProgress aRandom aPosTree aPosScatter Hsin Hp v pos blendX.
  pose proof (easeOutCubic_unit_interval uProgress Hp) as [Ht0 Ht1].
  assert (E1t : uProgress == 1 -> easeOutCubic uProgress == 1)
    by (intros E; unfold easeOutCubic, pow3; rewrite E; reflexivity).
  assert (E0t : uProgress == 0 -> easeOutCubic uProgress == 0)
    by (intros E; unfold easeOutCubic, pow3; rewrite E; reflexivity).
  subst blendX pos v. unfold FoliageShaderMaterial.vertexShader.
  cbn [FoliageShaderMaterial.pos FoliageShaderMaterial.vAlpha
       FoliageShaderMaterial.mix3 THREE.x THREE.y THREE.z].
  set (t := easeOutCubic uProgress) in *. clearbody t.
  destruct (Hsin (uTime * 2 + aRandom * 100)) as [Ha0 Ha1].
  set (w := Math_sin (uTime * (15 # 10) + _ + _)).
  assert (Hw : -1 <= w /\ w <= 1) by (subst w; apply Hsin).
  clearbody w. destruct Hw as [Hw0 Hw1].
  split; [apply mix_between; split; assumption |].
  split; [apply mix_between; split; assumption |].
  split; [split; nra |].
  split; [| split].
  - intros E1. apply E1t in E1. unfold FoliageShaderMaterial.mix. rewrite !E1.
    split; [ring |]. split; [ring |]. split; lra.
  - intros E0. apply E0t in E0. unfold FoliageShaderMaterial.mix. rewrite !E0.
    split; ring.
  - split; lra.
Qed.

Lemma foliage_vertex_position_witness :
  let v := @FoliageShaderMaterial.vertexShader constantMath 0 1
             (THREE.Vec3 1 2 3) (THREE.Vec3 4 5 6) (1 # 2) in
  THREE.y (FoliageShaderMaterial.pos v) == 2
  /\ THREE.z (FoliageShaderMaterial.pos v) == 3.
Proof.
  destruct (foliage_vertex_position constantMath 0 1 (1 # 2)
              (THREE.Vec3 1 2 3) (THREE.Vec3 4 5 6))
    as (_ & _ & _ & H1 & _).
  - intros a. split; discriminate.
  - split; discriminate.
  - destruct (H1 ltac:(reflexivity)) as (Hy & Hz & _). split; assumption.
Defined.

(** X8.  The colour the fragment shader picks follows the particle's random
    attribute: gold above 0.95, the bright mix above 0.5 and up to 0.95, the
    base colour up to 0.5; and the gold particles are exactly those drawn
    with the larger base size, 300 against 225. *)
Theorem foliage_colour_buckets :
  forall (M : MathLib) (uTime uProgress aRandom : Q)
         (aPosTree aPosScatter : THREE.Vector3),
    let v := FoliageShaderMaterial.vertexShader uTime uProgress aPosTree aPosScatter
               aRandom in
    let colour := FoliageShaderMaterial.fragmentColour (FoliageShaderMaterial.vType v) in
    ((95 # 100) < aRandom <-> colour = FoliageShaderMaterial.uColorGold)
    /\ ((5 # 10) < aRandom /\ aRandom <= (95 # 100)
        <-> colour = FoliageShaderMaterial.mixBaseTip)
    /\ (aRandom <= (5 # 10) <-> colour = FoliageShaderMaterial.uColorBase)
    /\ FoliageShaderMaterial.size v
       == (match colour with
           | FoliageShaderMaterial.uColorGold => 300
           | _ => 225
           end) * ((8 # 10) + (4 # 10) * aRandom).
Proof.
  intros M uTime uProgress aRandom aPosTree aPosScatter v colour.
  subst colour v. unfold FoliageShaderMaterial.vertexShader.
  cbn [FoliageShaderMaterial.vType FoliageShaderMaterial.size].
  destruct (Qlt_le_dec (95 # 100) aRandom) as [Hgold | Hnot].
  - cbn. repeat split; try reflexivity; try discriminate; intros; try lra.
  - destruct (Qlt_le_dec (5 # 10) aRandom) as [Hbright | Hbase]; cbn.
    + repeat split; try reflexivity; try discriminate; intros; try lra; try assumption.
    + repeat split; try reflexivity; try discriminate; intros; try lra; try assumption.
Qed.

(** ** The geometry of the placements *)

(** The squared distance of a point from the vertical axis of the tree. *)
Definition squaredRadius (v : THREE.Vector3) : Q :=
  THREE.x v * THREE.x v + THREE.z v * THREE.z v.

(** The host's sine and cosine satisfy the Pythagorean identity. *)
Definition pythagorean (M : MathLib) : Prop :=
  forall a, Math_cos a * Math_cos a + Math_sin a * Math_sin a == 1.

Lemma slotTreePos_height (M : MathLib) (i : nat) :
  THREE.y (PhotoSystem.slotTreePos i) == num i * (7 # 4) - 5.
Proof.
  unfold PhotoSystem.slotTreePos. cbn [THREE.y].
  change (num (PhotoSystem.count - 1)) with 8. field.
Qed.

Lemma slotTreePos_squaredRadius (M : MathLib) (i : nat) :
  pythagorean M ->
  squaredRadius (PhotoSystem.slotTreePos i)
  == ((85 # 10) - (85 # 100) * num i) * ((85 # 10) - (85 # 100) * num i).
Proof.
  intros HM. unfold squaredRadius, PhotoSystem.slotTreePos. cbn [THREE.x THREE.z].
  change (num (PhotoSystem.count - 1)) with 8.
  set (angle := num i / 8 * Math_PI * 4 + num i * (5 # 10)).
  specialize (HM angle).
  set (c := Math_cos angle) in *. set (s := Math_sin angle) in *.
  clearbody c s. clear angle.
  assert (E : c * ((1 - num i / 8 * (8 # 10)) * (85 # 10))
              * (c * ((1 - num i / 8 * (8 # 10)) * (85 # 10)))
              + s * ((1 - num i / 8 * (8 # 10)) * (85 # 10))
                * (s * ((1 - num i / 8 * (8 # 10)) * (85 # 10)))
              == (c * c + s * s)
                 * (((85 # 10) - (85 # 100) * num i) * ((85 # 10) - (85 # 100) * num i)))
    by field.
  rewrite E, HM. ring.
Qed.

(** X10.  The nine photo slots climb the tree: from one slot to the next the
    height rises (from -5 at slot 0 to 9 at slot 8) and the distance from the
    axis shrinks (from 8.5 to 1.7), the sine and cosine of the host
    satisfying the Pythagorean identity. *)
Theorem photo_slots_ascend_and_narrow :
  forall (M : MathLib) (i j : nat),
    pythagorean M -> (i < j)%nat -> (j < 9)%nat ->
    let p := PhotoSystem.slotTreePos i in
    let q := PhotoSystem.slotTreePos j in
    THREE.y p < THREE.y q
    /\ squaredRadius q < squaredRadius p
    /\ -5 <= THREE.y p /\ THREE.y q <= 9
    /\ squaredRadius p <= (85 # 10) * (85 # 10)
    /\ (17 # 10) * (17 # 10) <= squaredRadius q
    /\ THREE.y (PhotoSystem.slotTreePos 0) == -5
    /\ THREE.y (PhotoSystem.slotTreePos 8) == 9.
Proof.
  intros M i j HM Hij Hj p q. subst p q.
  rewrite !slotTreePos_height, !(slotTreePos_squaredRadius M _ HM).
  pose proof (num_lt i j Hij) as Hlt.
  pose proof (num_nonneg i) as Hi0.
  assert (Hj8 : num j <= 8) by (apply (num_le j 8); lia).
  set (a := num i) in *. set (b := num j) in *. clearbody a b.
  repeat split; try lra; try nra; reflexivity.
Qed.

Lemma photo_slots_ascend_and_narrow_witness :
  THREE.y (@PhotoSystem.slotTreePos constantMath 2)
  < THREE.y (@PhotoSystem.slotTreePos constantMath 5)
  /\ squaredRadius (@PhotoSystem.slotTreePos constantMath 5)
     < squaredRadius (@PhotoSystem.slotTreePos constantMath 2).
Proof.
  destruct (photo_slots_ascend_and_narrow constantMath 2 5) as (Hy & Hr & _).
  - intros a. reflexivity.
  - lia.
  - lia.
  - split; assumption.
Defined.

Lemma nth_error_map_seq_inv {A : Type} (f : nat -> A) (n i : nat) (a : A) :
  nth_error (map f (seq 0 n)) i = Some a -> (i < n)%nat /\ a = f i.
Proof.
  intros H. destruct (Nat.lt_ge_cases i n) as [Hi | Hi].
  - rewrite nth_error_map_seq in H by exact Hi. split; [exact Hi | congruence].
  - assert (E : nth_error (map f (seq 0 n)) i = None)
      by (apply nth_error_None; rewrite length_map, length_seq; exact Hi).
    congruence.
Qed.

(** The draws of the random source lie in [0, 1). *)
Definition unit_draws (rho : Random.Stream) : Prop :=
  forall n, 0 <= rho n /\ rho n < 1.

(** X11.  With draws in [0, 1) and a Pythagorean sine and cosine, each of the
    400 ornaments sits on the surface of a cone: its height y is in [-9, 9)
    and its distance from the axis is (9 - y) * 4/9, at most 8; its scale is
    in [0.2, 0.6), its rotation speed in [0, 0.02), and each coordinate of
    its scatter position in [-20, 20). *)
Theorem ornaments_lie_on_a_cone :
  forall (M : MathLib) (rho : Random.Stream) (i : nat) (item : OrnamentSystem.Item),
    pythagorean M -> unit_draws rho ->
    nth_error (Random.run OrnamentSystem.data rho) i = Some item ->
    let v := OrnamentSystem.treePos item in
    let r := (9 - THREE.y v) * (4 # 9) in
    let sp := OrnamentSystem.scatterPos item in
    (-9 <= THREE.y v /\ THREE.y v < 9)
    /\ squaredRadius v == r * r
    /\ (0 < r /\ r <= 8)
    /\ ((2 # 10) <= OrnamentSystem.scale item /\ OrnamentSystem.scale item < (6 # 10))
    /\ (0 <= OrnamentSystem.rotationSpeed item
        /\ OrnamentSystem.rotationSpeed item < (2 # 100))
    /\ (-20 <= THREE.x sp /\ THREE.x sp < 20)
    /\ (-20 <= THREE.y sp /\ THREE.y sp < 20)
    /\ (-20 <= THREE.z sp /\ THREE.z sp < 20).
Proof.
  intros M rho i item HM Hrho Hnth v r sp.
  rewrite ornament_data_items in Hnth.
  apply nth_error_map_seq_inv in Hnth. destruct Hnth as [_ ->].
  subst v r sp. unfold ornamentItem, OrnamentSystem.treePosOf, squaredRadius.
  cbn [OrnamentSystem.treePos OrnamentSystem.scatterPos OrnamentSystem.scale
       OrnamentSystem.rotationSpeed THREE.x THREE.y THREE.z].
  set (c := (i * 8)%nat).
  destruct (Hrho c) as [Ht0 Ht1].
  destruct (Hrho (2 + c)%nat) as [Hx0 Hx1].
  destruct (Hrho (3 + c)%nat) as [Hy0 Hy1].
  destruct (Hrho (4 + c)%nat) as [Hz0 Hz1].
  destruct (Hrho (5 + c)%nat) as [Hs0 Hs1].
  destruct (Hrho (7 + c)%nat) as [Hr0 Hr1].
  specialize (HM (rho (1 + c)%nat * Math_PI * 2)).
  set (co := Math_cos _) in *. set (si := Math_sin _) in *. clearbody co si.
  set (t := rho c) in *. clearbody t.
  set (half := 18 / 2).
  assert (Ehalf : half == 9) by reflexivity. clearbody half.
  split; [split; lra |].
  split.
  { assert (E : co * ((1 - t) * 8) * (co * ((1 - t) * 8))
                + si * ((1 - t) * 8) * (si * ((1 - t) * 8))
                == (co * co + si * si) * (((1 - t) * 8) * ((1 - t) * 8))) by ring.
    rewrite E, HM, Ehalf. ring. }
  split; [split; lra |].
  repeat split; lra.
Qed.

Lemma ornaments_lie_on_a_cone_witness :
  let item := @ornamentItem constantMath (fun _ => 1 # 2) (3 * 8) in
  -9 <= THREE.y (OrnamentSystem.treePos item)
  /\ THREE.y (OrnamentSystem.treePos item) < 9.
Proof.
  destruct (ornaments_lie_on_a_cone constantMath (fun _ => 1 # 2) 3
              (@ornamentItem constantMath (fun _ => 1 # 2) (3 * 8)))
    as (Hy & _).
  - intros a. reflexivity.
  - intros n. split; [discriminate | reflexivity].
  - rewrite ornament_data_items.
    rewrite nth_error_map_seq by (unfold OrnamentSystem.count; lia).
    reflexivity.
  - exact Hy.
Defined.

(** ** The ornament instances *)

From Stdlib Require Import Permutation.

(** The state of the [forEach] after the items [d], whose first has index [i]:
    the counters are the lengths of the write lists, each mesh is written at
    consecutive instances, every write to the box mesh is of a box and every
    write to the sphere mesh of a sphere, and the items written are the items
    visited. *)
Lemma forEach_from_spec (d d0 : list OrnamentSystem.Item) (w : OrnamentInstances.Writes) :
  let i := List.length d0 in
  let w' := OrnamentInstances.forEach_from i d w in
  let writes_of kind ws :=
    Forall (fun sw => option_map OrnamentSystem.type (nth_error (d0 ++ d) (snd sw))
                      = Some kind) ws in
  map fst (OrnamentInstances.box w) = seq 0 (OrnamentInstances.b w) ->
  map fst (OrnamentInstances.sphere w) = seq 0 (OrnamentInstances.s w) ->
  writes_of OrnamentSystem.BOX (OrnamentInstances.box w) ->
  writes_of OrnamentSystem.SPHERE (OrnamentInstances.sphere w) ->
  map fst (OrnamentInstances.box w') = seq 0 (OrnamentInstances.b w')
  /\ map fst (OrnamentInstances.sphere w') = seq 0 (OrnamentInstances.s w')
  /\ writes_of OrnamentSystem.BOX (OrnamentInstances.box w')
  /\ writes_of OrnamentSystem.SPHERE (OrnamentInstances.sphere w')
  /\ (OrnamentInstances.b w' + OrnamentInstances.s w'
      = OrnamentInstances.b w + OrnamentInstances.s w + List.length d)%nat
  /\ Permutation (map snd (OrnamentInstances.box w') ++ map snd (OrnamentInstances.sphere w'))
                 (map snd (OrnamentInstances.box w) ++ map snd (OrnamentInstances.sphere w)
                  ++ seq i (List.length d)).
Proof.
  cbv zeta. revert d0 w. induction d as [| item rest IH]; intros d0 w Hb Hs HB HS.
  - cbn [OrnamentInstances.forEach_from List.length seq].
    rewrite app_nil_r in HB, HS. rewrite !app_nil_r.
    split; [exact Hb |]. split; [exact Hs |]. split; [exact HB |].
    split; [exact HS |]. split; [lia | reflexivity].
  - cbn [OrnamentInstances.forEach_from].
    specialize (IH (d0 ++ [item]) (OrnamentInstances.forEach_body item (List.length d0) w)).
    rewrite length_app in IH. cbn [List.length] in IH.
    replace (List.length d0 + 1)%nat with (S (List.length d0)) in IH by lia.
    rewrite <- app_assoc in IH. cbn [app] in IH.
    assert (Hitem : option_map OrnamentSystem.type
                      (nth_error (d0 ++ item :: rest) (List.length d0))
                    = Some (OrnamentSystem.type item)).
    { rewrite nth_error_app2 by lia. rewrite Nat.sub_diag. reflexivity. }
    unfold OrnamentInstances.forEach_body in *.
    destruct (OrnamentSystem.type item) eqn:Ekind;
      cbn [OrnamentInstances.box OrnamentInstances.sphere
           OrnamentInstances.b OrnamentInstances.s] in IH.
    + destruct IH as (I1 & I2 & I3 & I4 & I5 & I6).
      * rewrite map_app, Hb, seq_S. reflexivity.
      * exact Hs.
      * apply Forall_app. split; [exact HB |]. repeat constructor. exact Hitem.
      * exact HS.
      * split; [exact I1 |]. split; [exact I2 |]. split; [exact I3 |].
        split; [exact I4 |]. split; [cbn [List.length]; lia |].
        rewrite I6, map_app. cbn [map snd List.length seq].
        rewrite <- !app_assoc. apply Permutation_app_head. cbn [app].
        apply Permutation_middle.
    + destruct IH as (I1 & I2 & I3 & I4 & I5 & I6).
      * exact Hb.
      * rewrite map_app, Hs, seq_S. reflexivity.
      * exact HB.
      * apply Forall_app. split; [exact HS |]. repeat constructor. exact Hitem.
      * split; [exact I1 |]. split; [exact I2 |]. split; [exact I3 |].
        split; [exact I4 |]. split; [cbn [List.length]; lia |].
        rewrite I6, map_app. cbn [map snd List.length seq].
        apply Permutation_app_head. rewrite <- app_assoc.
        apply Permutation_app_head. reflexivity.
Qed.

Lemma forEach_spec (d : list OrnamentSystem.Item) :
  let w := OrnamentInstances.forEach d in
  map fst (OrnamentInstances.box w) = seq 0 (OrnamentInstances.b w)
  /\ map fst (OrnamentInstances.sphere w) = seq 0 (OrnamentInstances.s w)
  /\ Forall (fun sw => option_map OrnamentSystem.type (nth_error d (snd sw))
                       = Some OrnamentSystem.BOX) (OrnamentInstances.box w)
  /\ Forall (fun sw => option_map OrnamentSystem.type (nth_error d (snd sw))
                       = Some OrnamentSystem.SPHERE) (OrnamentInstances.sphere w)
  /\ (OrnamentInstances.b w + OrnamentInstances.s w = List.length d)%nat
  /\ Permutation (map snd (OrnamentInstances.box w)
                  ++ map snd (OrnamentInstances.sphere w))
                 (seq 0 (List.length d)).
Proof.
  intros w. subst w. unfold OrnamentInstances.forEach.
  pose proof (forEach_from_spec d []
                {| OrnamentInstances.box := []; OrnamentInstances.sphere := [];
                   OrnamentInstances.b := 0; OrnamentInstances.s := 0 |}) as H.
  cbv zeta in H.
  cbn [List.length app OrnamentInstances.box OrnamentInstances.sphere
       OrnamentInstances.b OrnamentInstances.s map seq] in H.
  apply H; constructor.
Qed.

(** X12.  In a frame every ornament is written to exactly one instance: boxes
    to the box mesh and spheres to the sphere mesh, each mesh filled at the
    consecutive instances 0, 1, 2, ... with no gap and no instance twice.
    For the 400 generated ornaments no write goes beyond the 400 instances a
    mesh is created with. *)
Theorem ornament_instances_are_packed :
  (forall (d : list OrnamentSystem.Item),
     let w := OrnamentInstances.forEach d in
     map fst (OrnamentInstances.box w) = seq 0 (OrnamentInstances.b w)
     /\ map fst (OrnamentInstances.sphere w) = seq 0 (OrnamentInstances.s w)
     /\ Forall (fun sw => option_map OrnamentSystem.type (nth_error d (snd sw))
                          = Some OrnamentSystem.BOX) (OrnamentInstances.box w)
     /\ Forall (fun sw => option_map OrnamentSystem.type (nth_error d (snd sw))
                          = Some OrnamentSystem.SPHERE) (OrnamentInstances.sphere w)
     /\ (OrnamentInstances.b w + OrnamentInstances.s w = List.length d)%nat
     /\ Permutation (map snd (OrnamentInstances.box w)
                     ++ map snd (OrnamentInstances.sphere w))
                    (seq 0 (List.length d)))
  /\ (forall (M : MathLib) (rho : Random.Stream),
        let w := OrnamentInstances.forEach (Random.run OrnamentSystem.data rho) in
        Forall (fun sw => (fst sw < OrnamentSystem.count)%nat)
               (OrnamentInstances.box w ++ OrnamentInstances.sphere w)).
Proof.
  split; [exact forEach_spec |].
  intros M rho w.
  assert (Hlen : List.length (Random.run OrnamentSystem.data rho) = OrnamentSystem.count).
  { rewrite ornament_data_items, length_map, length_seq. reflexivity. }
  destruct (forEach_spec (Random.run OrnamentSystem.data rho))
    as (Hb & Hs & _ & _ & Hsum & _).
  fold w in Hb, Hs, Hsum. rewrite Hlen in Hsum. clearbody w.
  generalize dependent OrnamentSystem.count. intros cnt _ Hsum.
  apply Forall_app. split; apply Forall_forall; intros sw Hin.
  - apply (in_map fst) in Hin. rewrite Hb in Hin. apply in_seq in Hin. lia.
  - apply (in_map fst) in Hin. rewrite Hs in Hin. apply in_seq in Hin. lia.
Qed.

(** ** The group of a photo over many frames *)

(** The frames of a photo group rendered with the given elapsed times and
    base positions, the focus and hover flags being held. *)
Definition polaroidGroupFrames `{MathLib} (index : nat) (isFocused hover : bool)
    (frames : list (Q * THREE.Vector3)) (g : PolaroidGroup.t) : PolaroidGroup.t :=
  fold_left (fun g f => PolaroidGroup.useFrame (fst f) index isFocused hover (snd f) g)
            frames g.

(** All three components of the scale of [g] are [s]. *)
Definition uniformScale (g : PolaroidGroup.t) (s : Q) : Prop :=
  THREE.x (PolaroidGroup.scale g) == s
  /\ THREE.y (PolaroidGroup.scale g) == s
  /\ THREE.z (PolaroidGroup.scale g) == s.

Lemma unfocused_frames_scale (M : MathLib) (index : nat) (hover : bool)
    (frames : list (Q * THREE.Vector3)) (g : PolaroidGroup.t) (s : Q) :
  uniformScale g s ->
  uniformScale (polaroidGroupFrames index false hover frames g)
    (if hover
     then 11 - (11 - s) * (99 # 100) ^ Z.of_nat (List.length frames)
     else 1 + (s - 1) * (9 # 10) ^ Z.of_nat (List.length frames)).
Proof.
  unfold polaroidGroupFrames. revert g s.
  induction frames as [| f frames IH]; intros g s (Hx & Hy & Hz).
  - cbn [fold_left List.length Z.of_nat]. unfold uniformScale.
    rewrite Hx, Hy, Hz. destruct hover; repeat split; ring.
  - cbn [fold_left].
    change (List.length (f :: frames)) with (S (List.length frames)).
    set (g1 := PolaroidGroup.useFrame (fst f) index false hover (snd f) g).
    assert (H1 : uniformScale g1
                   (if hover then (s + (1 - s) * (1 # 10)) * (11 # 10)
                    else s + (1 - s) * (1 # 10))).
    { subst g1. unfold uniformScale, PolaroidGroup.useFrame.
      destruct hover;
        cbn [PolaroidGroup.scale PolaroidGroup.lerp PolaroidGroup.multiplyScalar
             THREE.x THREE.y THREE.z];
        rewrite Hx, Hy, Hz; repeat split; reflexivity. }
    specialize (IH g1 _ H1). clearbody g1.
    destruct IH as (Ix & Iy & Iz). unfold uniformScale.
    rewrite Ix, Iy, Iz.
    destruct hover; rewrite Qpower_succ; repeat split; ring.
Qed.

(** X13.  While the pointer hovers over an unfocused photo its scale is
    multiplied by 1.1 at every frame, after the pull of 0.1 towards 1: from
    scale 1, after n hovered frames the scale is 11 - 10 * 0.99^n.  It never
    shrinks and stays below 11; after 60 hovered frames the photo is more
    than five times its size. *)
Theorem hover_scale_grows :
  forall (M : MathLib) (index : nat) (frames : list (Q * THREE.Vector3)),
    let n := List.length frames in
    let g := polaroidGroupFrames index false true frames PolaroidGroup.init in
    let next f := PolaroidGroup.useFrame (fst f) index false true (snd f) g in
    uniformScale g (11 - 10 * (99 # 100) ^ Z.of_nat n)
    /\ THREE.x (PolaroidGroup.scale g) < 11
    /\ (forall f, THREE.x (PolaroidGroup.scale g) <= THREE.x (PolaroidGroup.scale (next f)))
    /\ (n = 1%nat -> THREE.x (PolaroidGroup.scale g) == 11 # 10)
    /\ (n = 60%nat -> 5 < THREE.x (PolaroidGroup.scale g)).
Proof.
  intros M index frames n g next.
  assert (Hinit : uniformScale PolaroidGroup.init 1) by (repeat split; reflexivity).
  pose proof (unfocused_frames_scale M index true frames PolaroidGroup.init 1 Hinit)
    as Hg.
  fold g n in Hg. cbv iota in Hg.
  assert (E : 11 - (11 - 1) * (99 # 100) ^ Z.of_nat n
              == 11 - 10 * (99 # 100) ^ Z.of_nat n) by ring.
  assert (Hpow : 0 < (99 # 100) ^ Z.of_nat n) by (apply Qpower_0_lt; reflexivity).
  destruct Hg as (Hx & Hy & Hz). rewrite E in Hx, Hy, Hz.
  split; [repeat split; assumption |].
  split; [rewrite Hx; lra |].
  split; [| split].
  - intros f. subst next. unfold PolaroidGroup.useFrame.
    cbn [PolaroidGroup.scale PolaroidGroup.lerp PolaroidGroup.multiplyScalar THREE.x].
    rewrite Hx. set (r := (99 # 100) ^ Z.of_nat n) in *. clearbody r. lra.
  - intros Hn. rewrite Hx, Hn. reflexivity.
  - intros Hn. rewrite Hx, Hn. vm_compute. reflexivity.
Qed.

Lemma hover_scale_grows_witness :
  THREE.x (PolaroidGroup.scale
             (@polaroidGroupFrames constantMath 0 false true [(0, THREE.Vec3 0 0 0)]
                PolaroidGroup.init))
  == 11 # 10.
Proof.
  destruct (hover_scale_grows constantMath 0 [(0, THREE.Vec3 0 0 0)])
    as (_ & _ & _ & H1 & _).
  apply H1. reflexivity.
Defined.

(** X14.  A photo that is not hovered keeps the scale 1 it is created with;
    and after the pointer leaves, a scale s returns to 1 as
    1 + (s - 1) * 0.9^n over n frames. *)
Theorem unhovered_scale_settles :
  forall (M : MathLib) (index : nat) (frames : list (Q * THREE.Vector3)),
    uniformScale (polaroidGroupFrames index false false frames PolaroidGroup.init) 1
    /\ (forall (g : PolaroidGroup.t) (s : Q),
          uniformScale g s ->
          uniformScale (polaroidGroupFrames index false false frames g)
            (1 + (s - 1) * (9 # 10) ^ Z.of_nat (List.length frames))).
Proof.
  intros M index frames. split.
  - assert (Hinit : uniformScale PolaroidGroup.init 1) by (repeat split; reflexivity).
    pose proof (unfocused_frames_scale M index false frames PolaroidGroup.init 1 Hinit)
      as (Hx & Hy & Hz).
    cbv iota in Hx, Hy, Hz.
    assert (E : 1 + (1 - 1) * (9 # 10) ^ Z.of_nat (List.length frames) == 1) by ring.
    rewrite E in Hx, Hy, Hz. repeat split; assumption.
  - intros g s Hs. apply (unfocused_frames_scale M index false frames g s Hs).
Qed.

Lemma unhovered_scale_settles_witness :
  uniformScale
    (@polaroidGroupFrames constantMath 0 false false [(0, THREE.Vec3 0 0 0)]
       {| PolaroidGroup.position := THREE.Vec3 0 0 0;
          PolaroidGroup.scale := THREE.Vec3 2 2 2 |})
    (1 + (2 - 1) * (9 # 10) ^ Z.of_nat 1).
Proof.
  destruct (unhovered_scale_settles constantMath 0 [(0, THREE.Vec3 0 0 0)]) as (_ & H).
  apply H. repeat split; reflexivity.
Defined.

(** X15.  While a photo is focused its group moves to (0, 5, 20) and its scale
    to 3.5, each component covering a tenth of the remaining distance at
    every frame, whatever the base position, the clock and the hover flag:
    after n frames a component c with target T is at T + (c - T) * 0.9^n. *)
Theorem focused_photo_approaches_target :
  forall (M : MathLib) (index : nat) (hover : bool)
         (frames : list (Q * THREE.Vector3)) (g : PolaroidGroup.t),
    let g' := polaroidGroupFrames index true hover frames g in
    let r := (9 # 10) ^ Z.of_nat (List.length frames) in
    let after (T c : Q) := T + (c - T) * r in
    THREE.x (PolaroidGroup.position g') == after 0 (THREE.x (PolaroidGroup.position g))
    /\ THREE.y (PolaroidGroup.position g') == after 5 (THREE.y (PolaroidGroup.position g))
    /\ THREE.z (PolaroidGroup.position g') == after 20 (THREE.z (PolaroidGroup.position g))
    /\ THREE.x (PolaroidGroup.scale g') == after (35 # 10) (THREE.x (PolaroidGroup.scale g))
    /\ THREE.y (PolaroidGroup.scale g') == after (35 # 10) (THREE.y (PolaroidGroup.scale g))
    /\ THREE.z (PolaroidGroup.scale g') == after (35 # 10) (THREE.z (PolaroidGroup.scale g)).
Proof.
  intros M index hover frames. unfold polaroidGroupFrames. cbv zeta.
  induction frames as [| f frames IH]; intros g.
  - cbn [fold_left List.length Z.of_nat]. repeat split; ring.
  - cbn [fold_left].
    specialize (IH (PolaroidGroup.useFrame (fst f) index true hover (snd f) g)).
    destruct IH as (I1 & I2 & I3 & I4 & I5 & I6).
    rewrite I1, I2, I3, I4, I5, I6.
    replace (List.length (f :: frames)) with (S (List.length frames)) by reflexivity.
    rewrite Qpower_succ.
    cbn [PolaroidGroup.useFrame PolaroidGroup.position PolaroidGroup.scale
         PolaroidGroup.lerp THREE.x THREE.y THREE.z].
    repeat split; ring.
Qed.

(** ** The application state *)

Definition app_invariant (s : App.t) : Prop :=
  (App.mode s = 0%Z \/ App.mode s = 1%Z)
  /\ (List.length (App.userPhotos s) <= 9)%nat.

Lemma app_step_invariant {File : Type} (processImageFile : File -> string)
    (s : App.t) (e : AppEvents.Event File) :
  app_invariant s -> app_invariant (AppEvents.step processImageFile s e).
Proof.
  intros [Hmode Hlen]. destruct e as [| [[| f fs] |]]; cbn [AppEvents.step].
  - split; [| exact Hlen]. cbn [App.toggleMode App.mode].
    destruct (App.mode s =? 0)%Z; [right | left]; reflexivity.
  - split; assumption.
  - split; cbn [App.handleUpload App.mode App.userPhotos].
    + destruct (Z.eqb_spec (App.mode s) 0); [right; reflexivity | exact Hmode].
    + rewrite slice_last_length. lia.
  - split; assumption.
Qed.

Lemma app_run_invariant {File : Type} (processImageFile : File -> string)
    (es : list (AppEvents.Event File)) (s : App.t) :
  app_invariant s -> app_invariant (AppEvents.run processImageFile es s).
Proof.
  unfold AppEvents.run. revert s.
  induction es as [| e es IH]; intros s Hs; [exact Hs |].
  cbn [fold_left]. apply IH, app_step_invariant, Hs.
Qed.

(** X16.  Whatever the user does with the mode button and the file input,
    the mode is 0 or 1 and there are at most nine current photos. *)
Theorem app_mode_and_photos_bounded :
  forall (File : Type) (processImageFile : File -> string)
         (es : list (AppEvents.Event File)),
    let s := AppEvents.run processImageFile es App.init in
    (App.mode s = 0%Z \/ App.mode s = 1%Z)
    /\ (List.length (App.userPhotos s) <= 9)%nat.
Proof.
  intros File processImageFile es s. subst s.
  apply (app_run_invariant processImageFile es App.init).
  split; [left; reflexivity | cbn; lia].
Qed.

Lemma slice_last_keeps_last {A : Type} (n : nat) (arr : list A) (a : A) :
  (1 <= n)%nat -> exists older, App.slice_last n (arr ++ [a]) = older ++ [a].
Proof.
  intros Hn. unfold App.slice_last. rewrite length_app. cbn [List.length].
  rewrite skipn_app.
  replace (List.length arr + 1 - n - List.length arr)%nat with 0%nat by lia.
  cbn [skipn]. eexists. reflexivity.
Qed.

(** X17.  A change of the file input with no file list or an empty one leaves
    the application as it is.  An upload of at least one file assembles the
    tree if it was scattered and leaves the mode alone otherwise, puts the
    last file uploaded at the end of the current photos, and, when it brings
    nine files or more, replaces every earlier photo. *)
Theorem upload_edge_cases :
  forall (File : Type) (processImageFile : File -> string) (s : App.t),
    App.handleUpload processImageFile None s = s
    /\ App.handleUpload processImageFile (Some []) s = s
    /\ (forall (f : File) (fs : list File),
          let s' := App.handleUpload processImageFile (Some (f :: fs)) s in
          (App.mode s = 0%Z -> App.mode s' = 1%Z)
          /\ (App.mode s <> 0%Z -> App.mode s' = App.mode s)
          /\ (exists older,
                 App.userPhotos s' = older ++ [processImageFile (last fs f)])
          /\ ((9 <= List.length (f :: fs))%nat ->
              App.userPhotos s' = App.slice_last 9 (map processImageFile (f :: fs)))).
Proof.
  intros File processImageFile s.
  split; [reflexivity |]. split; [reflexivity |].
  intros f fs s'. subst s'. cbn [App.handleUpload App.mode App.userPhotos].
  split; [intros ->; reflexivity |].
  split; [intros Hne; destruct (Z.eqb_spec (App.mode s) 0); [contradiction | reflexivity] |].
  split.
  - assert (E : map processImageFile (f :: fs)
                = map processImageFile (removelast (f :: fs))
                  ++ [processImageFile (last fs f)]).
    { rewrite <- map_last. f_equal.
      rewrite (app_removelast_last (l := f :: fs) f) at 1 by discriminate.
      f_equal. f_equal. destruct fs; reflexivity. }
    rewrite E, app_assoc. apply slice_last_keeps_last. lia.
  - intros Hlen. unfold App.slice_last.
    rewrite length_app, length_map, skipn_app.
    rewrite (skipn_all2 (App.userPhotos s)) by lia.
    cbn [app]. f_equal. lia.
Qed.

Lemma upload_edge_cases_witness :
  App.mode (App.handleUpload (fun f : string => f) (Some ["a"%string]) App.init) = 1%Z
  /\ App.userPhotos
       (App.handleUpload (fun f : string => f)
          (Some ["1"; "2"; "3"; "4"; "5"; "6"; "7"; "8"; "9"; "10"]%string)
          {| App.mode := 1; App.userPhotos := ["old"%string] |})
     = App.slice_last 9
         (map (fun f : string => f)
            ["1"; "2"; "3"; "4"; "5"; "6"; "7"; "8"; "9"; "10"]%string).
Proof.
  split.
  - destruct (upload_edge_cases string (fun f => f) App.init) as (_ & _ & H).
    apply (H "a"%string []). reflexivity.
  - destruct (upload_edge_cases string (fun f => f)
                {| App.mode := 1; App.userPhotos := ["old"%string] |}) as (_ & _ & H).
    apply (H "1"%string ["2"; "3"; "4"; "5"; "6"; "7"; "8"; "9"; "10"]%string).
    cbn [List.length]. lia.
Defined.

(** X18.  Every current photo is on the tree: whatever was uploaded, the
    photo at position j of the current photos is bound to slot j, so no
    photo that is kept goes unshown. *)
Theorem every_current_photo_has_a_slot :
  forall (File : Type) (processImageFile : File -> string)
         (es : list (AppEvents.Event File)) (slots : list PhotoSystem.Slot)
         (focusedIdx : option nat) (j : nat) (url : string),
    let s := AppEvents.run processImageFile es App.init in
    List.length slots = 9%nat ->
    nth_error (App.userPhotos s) j = Some url ->
    exists (p : PhotoSystem.Props),
      nth_error (fst (PhotoSystem.render slots (App.userPhotos s) focusedIdx)) j = Some p
      /\ PhotoSystem.index_ p = j
      /\ PhotoSystem.photoUrl_ p = JsString url.
Proof.
  intros File processImageFile es slots focusedIdx j url s Hslots Hurl.
  destruct (app_mode_and_photos_bounded File processImageFile es) as [_ Hlen].
  fold s in Hlen.
  assert (Hj : (j < List.length (App.userPhotos s))%nat)
    by (apply nth_error_Some; congruence).
  destruct (nth_error slots j) as [sl |] eqn:Esl.
  2:{ apply nth_error_None in Esl. lia. }
  destruct (photoUrl_nonempty (App.userPhotos s) j ltac:(lia)) as (url' & Hnth & Hp).
  rewrite Nat.mod_small in Hnth by exact Hj.
  assert (url' = url) by congruence. subst url'.
  eexists. unfold PhotoSystem.render.
  rewrite (render_from_nth 0 slots (App.userPhotos s) focusedIdx j sl Esl).
  cbn [Nat.add PhotoSystem.index_ PhotoSystem.photoUrl_].
  split; [reflexivity |]. split; [reflexivity | exact Hp].
Qed.

Lemma every_current_photo_has_a_slot_witness :
  exists (p : PhotoSystem.Props),
    nth_error
      (fst (PhotoSystem.render
              (Random.run (@PhotoSystem.slots constantMath) (fun _ => 1 # 2))
              (App.userPhotos
                 (AppEvents.run (fun f : string => f)
                    [AppEvents.Upload (Some ["a"; "b"]%string)] App.init))
              None)) 1 = Some p
    /\ PhotoSystem.index_ p = 1%nat
    /\ PhotoSystem.photoUrl_ p = JsString "b".
Proof.
  apply (every_current_photo_has_a_slot string (fun f => f)
           [AppEvents.Upload (Some ["a"; "b"]%string)]
           (Random.run (@PhotoSystem.slots constantMath) (fun _ => 1 # 2))
           None 1%nat "b"%string); reflexivity.
Defined.

(** ** The firework launcher *)

(** The burst the launch loop makes with id [n] from the four draws that
    start at cursor [c]. *)
Definition explosionAt (n : nat) (rho : Random.Stream) (c : nat) : Fireworks.Explosion :=
  {| Fireworks.id := n;
     Fireworks.hue := rho c;
     Fireworks.position := THREE.Vec3 ((rho (1 + c)%nat - (1 # 2)) * 20)
                                      (5 + rho (2 + c)%nat * 10)
                                      ((rho (3 + c)%nat - (1 # 2)) * 10) |}.

Lemma effect_launch (s : Fireworks.t) (rho : Random.Stream) (c : nat) :
  Fireworks.effect true s rho c
  = ({| Fireworks.explosions := [explosionAt (Fireworks.idRef s) rho c;
                                 explosionAt (1 + Fireworks.idRef s) rho (4 + c);
                                 explosionAt (2 + Fireworks.idRef s) rho (8 + c)];
        Fireworks.idRef := 3 + Fireworks.idRef s;
        Fireworks.active := true;
        Fireworks.pendingClear := true |}, (12 + c)%nat).
Proof. reflexivity. Qed.

(** What every state of the launcher satisfies: a timeout is pending only
    while [active] is true, and the list is empty or holds the three bursts
    of the last launch, with the last three ids given out. *)
Definition fireworks_invariant (s : Fireworks.t) : Prop :=
  (Fireworks.pendingClear s = true -> Fireworks.active s = true)
  /\ (Fireworks.explosions s = []
      \/ exists n, Fireworks.idRef s = (3 + n)%nat
                   /\ map Fireworks.id (Fireworks.explosions s) = [n; S n; S (S n)]).

Lemma fireworks_step_invariant (s : Fireworks.t) (e : Fireworks.Event)
    (rho : Random.Stream) (c : nat) :
  fireworks_invariant s -> fireworks_invariant (fst (Fireworks.step s e rho c)).
Proof.
  intros [Hp Hx]. destruct e as [a |]; cbn [Fireworks.step].
  - unfold Fireworks.render. destruct (Bool.eqb a (Fireworks.active s)) eqn:Ea.
    + split; assumption.
    + destruct a.
      * rewrite effect_launch. cbn [fst]. split; [reflexivity |].
        right. exists (Fireworks.idRef (Fireworks.cleanup s)). split; reflexivity.
      * unfold Fireworks.cleanup.
        destruct (Fireworks.active s) eqn:Eact; [| discriminate].
        cbn. split; [discriminate | exact Hx].
  - unfold Fireworks.timeout, Random.ret. cbn [fst].
    destruct (Fireworks.pendingClear s) eqn:Epc.
    + split; [discriminate | left; reflexivity].
    + split; [rewrite Epc; discriminate | exact Hx].
Qed.

Lemma fireworks_run_invariant (es : list Fireworks.Event) (s : Fireworks.t)
    (rho : Random.Stream) (c : nat) :
  fireworks_invariant s -> fireworks_invariant (fst (Fireworks.run es s rho c)).
Proof.
  revert s c. induction es as [| e es IH]; intros s c Hs; [exact Hs |].
  cbn [Fireworks.run]. unfold Random.bind.
  pose proof (fireworks_step_invariant s e rho c Hs) as H1.
  destruct (Fireworks.step s e rho c) as [s1 c1]. apply IH. exact H1.
Qed.

Lemma fireworks_mount_invariant (rho : Random.Stream) (c : nat) :
  fireworks_invariant (fst (Fireworks.mount false rho c)).
Proof. split; [discriminate | left; reflexivity]. Qed.

(** The launcher after the events [es], mounted with [active] false. *)
Definition fireworksAfter (es : list Fireworks.Event) (rho : Random.Stream) : Fireworks.t :=
  Random.run (s <- Fireworks.mount false ;; Fireworks.run es s) rho.

Lemma fireworksAfter_invariant (es : list Fireworks.Event) (rho : Random.Stream) :
  fireworks_invariant (fireworksAfter es rho).
Proof.
  unfold fireworksAfter, Random.run, Random.bind.
  pose proof (fireworks_mount_invariant rho 0%nat) as Hm.
  destruct (Fireworks.mount false rho 0%nat) as [s0 c0].
  apply fireworks_run_invariant. exact Hm.
Qed.

(** The launcher after [es ++ tail] is the launcher after [es] run on [tail]. *)
Lemma fireworksAfter_app (es tail : list Fireworks.Event) (rho : Random.Stream) :
  exists c, fireworksAfter (es ++ tail) rho
            = fst (Fireworks.run tail (fireworksAfter es rho) rho c).
Proof.
  unfold fireworksAfter, Random.run, Random.bind.
  destruct (Fireworks.mount false rho 0%nat) as [s0 c0].
  generalize s0 c0. clear s0 c0.
  induction es as [| e es IH]; intros s0 c0.
  - exists c0. reflexivity.
  - cbn [app Fireworks.run]. unfold Random.bind.
    destruct (Fireworks.step s0 e rho c0) as [s1 c1]. apply IH.
Qed.

(** X19.  After any renders and timeouts the launcher shows no burst or
    exactly three, and the three carry distinct ids, the last three given
    out: a burst never shares its id with another burst of the list or with
    a burst of an earlier launch. *)
Theorem fireworks_ids_are_fresh :
  forall (es : list Fireworks.Event) (rho : Random.Stream),
    let s := fireworksAfter es rho in
    let ids := map Fireworks.id (Fireworks.explosions s) in
    (List.length (Fireworks.explosions s) = 0%nat
     \/ List.length (Fireworks.explosions s) = 3%nat)
    /\ NoDup ids
    /\ Forall (fun n => (n < Fireworks.idRef s)%nat) ids
    /\ (forall (rho' : Random.Stream) (c : nat),
          Fireworks.active s = false ->
          let s' := fst (Fireworks.render true s rho' c) in
          Forall (fun n => (Fireworks.idRef s <= n)%nat)
                 (map Fireworks.id (Fireworks.explosions s'))).
Proof.
  intros es rho s ids.
  destruct (fireworksAfter_invariant es rho) as [_ Hx]. fold s in Hx. subst ids.
  split; [| split; [| split]].
  - destruct Hx as [-> | (n & _ & Hids)]; [left; reflexivity | right].
    apply (f_equal (@List.length nat)) in Hids. now rewrite length_map in Hids.
  - destruct Hx as [-> | (n & _ & ->)]; [constructor |].
    repeat constructor; cbn; lia.
  - destruct Hx as [-> | (n & -> & ->)]; [constructor |].
    repeat constructor; lia.
  - intros rho' c Hact s'. subst s'. unfold Fireworks.render.
    rewrite Hact. cbn [Bool.eqb]. rewrite effect_launch. cbn [fst Fireworks.explosions map].
    unfold Fireworks.cleanup. rewrite Hact. cbn [explosionAt Fireworks.id].
    repeat constructor; lia.
Qed.

Lemma fireworks_ids_are_fresh_witness :
  let s := fireworksAfter [Fireworks.Render true; Fireworks.Render false] (fun _ => 1 # 2) in
  Forall (fun n => (Fireworks.idRef s <= n)%nat)
         (map Fireworks.id
              (Fireworks.explosions (fst (Fireworks.render true s (fun _ => 1 # 2) 0%nat)))).
Proof.
  destruct (fireworks_ids_are_fresh [Fireworks.Render true; Fireworks.Render false]
              (fun _ => 1 # 2)) as (_ & _ & _ & H).
  apply (H (fun _ => 1 # 2) 0%nat). reflexivity.
Defined.

(** X20.  The timeout that empties the list is cancelled as soon as [active]
    changes: whenever [active] is false no timeout is pending and a timer
    event changes nothing.  So when [active] is raised and lowered again
    before the timeout, as the photo click does after 0.1 s, the three bursts
    stay in the list; the list is emptied if [active] is still true when the
    timeout fires. *)
Theorem fireworks_timeout_is_cancelled :
  forall (es : list Fireworks.Event) (rho : Random.Stream),
    let s := fireworksAfter es rho in
    Fireworks.active s = false ->
    (Fireworks.pendingClear s = false /\ Fireworks.timeout s = s)
    /\ List.length
         (Fireworks.explosions
            (fireworksAfter (es ++ [Fireworks.Render true; Fireworks.Render false;
                                    Fireworks.Timeout]) rho)) = 3%nat
    /\ Fireworks.explosions
         (fireworksAfter (es ++ [Fireworks.Render true; Fireworks.Timeout]) rho) = [].
Proof.
  intros es rho s Hact.
  destruct (fireworksAfter_invariant es rho) as [Hp _]. fold s in Hp.
  assert (Hpc : Fireworks.pendingClear s = false).
  { destruct (Fireworks.pendingClear s); [| reflexivity].
    specialize (Hp eq_refl). congruence. }
  split; [| split].
  - split; [exact Hpc |]. unfold Fireworks.timeout. now rewrite Hpc.
  - destruct (fireworksAfter_app es [Fireworks.Render true; Fireworks.Render false;
                                     Fireworks.Timeout] rho) as [c ->].
    fold s. cbn [Fireworks.run Fireworks.step]. unfold Random.bind, Fireworks.render.
    rewrite Hact. cbn [Bool.eqb]. rewrite effect_launch. reflexivity.
  - destruct (fireworksAfter_app es [Fireworks.Render true; Fireworks.Timeout] rho)
      as [c ->].
    fold s. cbn [Fireworks.run Fireworks.step]. unfold Random.bind, Fireworks.render.
    rewrite Hact. cbn [Bool.eqb]. rewrite effect_launch. reflexivity.
Qed.

Lemma fireworks_timeout_is_cancelled_witness :
  List.length
    (Fireworks.explosions
       (fireworksAfter ([] ++ [Fireworks.Render true; Fireworks.Render false;
                               Fireworks.Timeout]) (fun _ => 1 # 2))) = 3%nat.
Proof.
  destruct (fireworks_timeout_is_cancelled [] (fun _ => 1 # 2)) as (_ & H & _).
  - reflexivity.
  - exact H.
Defined.

(** X21.  With draws in [0, 1) every burst of the list is launched inside the
    box -10 <= x < 10, 5 <= y < 15, -5 <= z < 5, with a hue in [0, 1). *)
Theorem fireworks_launch_inside_box :
  forall (es : list Fireworks.Event) (rho : Random.Stream),
    unit_draws rho ->
    Forall (fun e =>
              let p := Fireworks.position e in
              (-10 <= THREE.x p /\ THREE.x p < 10)
              /\ (5 <= THREE.y p /\ THREE.y p < 15)
              /\ (-5 <= THREE.z p /\ THREE.z p < 5)
              /\ (0 <= Fireworks.hue e /\ Fireworks.hue e < 1))
           (Fireworks.explosions (fireworksAfter es rho)).
Proof.
  intros es rho Hrho.
  set (inside := fun e : Fireworks.Explosion =>
                   let p := Fireworks.position e in
                   (-10 <= THREE.x p /\ THREE.x p < 10)
                   /\ (5 <= THREE.y p /\ THREE.y p < 15)
                   /\ (-5 <= THREE.z p /\ THREE.z p < 5)
                   /\ (0 <= Fireworks.hue e /\ Fireworks.hue e < 1)).
  assert (Hat : forall n c, inside (explosionAt n rho c)).
  { intros n c. subst inside. cbv zeta.
    cbn [explosionAt Fireworks.position Fireworks.hue THREE.x THREE.y THREE.z].
    destruct (Hrho c), (Hrho (1 + c)%nat), (Hrho (2 + c)%nat), (Hrho (3 + c)%nat).
    repeat split; lra. }
  assert (Hstep : forall s e c,
             Forall inside (Fireworks.explosions s) ->
             Forall inside (Fireworks.explosions (fst (Fireworks.step s e rho c)))).
  { intros s e c Hs. destruct e as [a |]; cbn [Fireworks.step].
    - unfold Fireworks.render. destruct (Bool.eqb a (Fireworks.active s)); [exact Hs |].
      destruct a.
      + rewrite effect_launch. cbn [fst Fireworks.explosions].
        repeat constructor; apply Hat.
      + unfold Fireworks.cleanup. destruct (Fireworks.active s); exact Hs.
    - unfold Fireworks.timeout, Random.ret. cbn [fst].
      destruct (Fireworks.pendingClear s); [constructor | exact Hs]. }
  unfold fireworksAfter, Random.run, Random.bind.
  assert (Hm : Forall inside (Fireworks.explosions (fst (Fireworks.mount false rho 0%nat))))
    by constructor.
  destruct (Fireworks.mount false rho 0%nat) as [s0 c0]. cbn [fst] in Hm.
  revert s0 c0 Hm. induction es as [| e es IH]; intros s0 c0 Hm; [exact Hm |].
  cbn [Fireworks.run]. unfold Random.bind.
  pose proof (Hstep s0 e c0 Hm) as H1.
  destruct (Fireworks.step s0 e rho c0) as [s1 c1]. apply IH. exact H1.
Qed.

Lemma fireworks_launch_inside_box_witness :
  Forall (fun e =>
            let p := Fireworks.position e in
            (-10 <= THREE.x p /\ THREE.x p < 10)
            /\ (5 <= THREE.y p /\ THREE.y p < 15)
            /\ (-5 <= THREE.z p /\ THREE.z p < 5)
            /\ (0 <= Fireworks.hue e /\ Fireworks.hue e < 1))
         (Fireworks.explosions (fireworksAfter [Fireworks.Render true] (fun _ => 1 # 2))).
Proof.
  apply (fireworks_launch_inside_box [Fireworks.Render true] (fun _ => 1 # 2)).
  intros n. split; [discriminate | reflexivity].
Defined.

(** ** The firework shader over the life of a burst *)

Lemma frames_last_uTime (earlier : list Z) (now T0 : Z) :
  FireworkInstance.uTime
    (FireworkInstance.frames (earlier ++ [now]) (FireworkInstance.mount T0))
  = inject_Z (now - T0) / 1500.
Proof.
  unfold FireworkInstance.frames. rewrite fold_left_app.
  cbn [fold_left FireworkInstance.useFrame FireworkInstance.uTime].
  unfold FireworkInstance.age.
  fold (FireworkInstance.frames earlier (FireworkInstance.mount T0)).
  rewrite frames_startTime. reflexivity.
Qed.

(** X22.  At a frame at which a burst is still visible (the clock not being
    before its creation) the time uniform handed to the shader is between 0
    and 1, so the point size before the perspective division is between 0 and
    200 and never negative; every particle is at or below the straight line
    of its velocity, by 2 * uTime^2. *)
Theorem visible_firework_shader_inputs :
  forall (T0 now : Z) (earlier : list Z) (position aVelocity : THREE.Vector3),
    let fw := FireworkInstance.frames (earlier ++ [now]) (FireworkInstance.mount T0) in
    let out := FireworkShaderMaterial.vertexShader (FireworkInstance.uTime fw)
                 position aVelocity in
    (T0 <= now)%Z ->
    FireworkInstance.visible fw = true ->
    (0 <= FireworkInstance.uTime fw /\ FireworkInstance.uTime fw <= 1)
    /\ (0 <= snd out /\ snd out <= 200)
    /\ THREE.y (fst out)
       == THREE.y position + THREE.y aVelocity * FireworkInstance.uTime fw * 15
          - 2 * FireworkInstance.uTime fw * FireworkInstance.uTime fw
    /\ THREE.y (fst out)
       <= THREE.y position + THREE.y aVelocity * FireworkInstance.uTime fw * 15.
Proof.
  intros T0 now earlier position aVelocity fw out Hnow Hvis.
  assert (Hage : (now - T0 <= 1500)%Z).
  { subst fw. rewrite frames_visible in Hvis.
    cbn [FireworkInstance.mount FireworkInstance.visible FireworkInstance.startTime andb]
      in Hvis.
    rewrite forallb_app in Hvis. apply andb_true_iff in Hvis. destruct Hvis as [_ Hlast].
    cbn [forallb] in Hlast. rewrite andb_true_r in Hlast. apply Z.leb_le. exact Hlast. }
  assert (Hu : 0 <= FireworkInstance.uTime fw /\ FireworkInstance.uTime fw <= 1).
  { subst fw. rewrite frames_last_uTime.
    set (d := (now - T0)%Z) in *.
    assert (Hd0 : (0 <= d)%Z) by (subst d; lia).
    unfold Qle, Qdiv, Qmult, Qinv, inject_Z. cbn. lia. }
  subst out. unfold FireworkShaderMaterial.vertexShader. cbn [fst snd THREE.y].
  set (u := FireworkInstance.uTime fw) in *. clearbody u. destruct Hu as [Hu0 Hu1].
  split; [split; assumption |].
  split; [split; lra |].
  split; [reflexivity |]. nra.
Qed.

Lemma visible_firework_shader_inputs_witness :
  let fw := FireworkInstance.frames ([16; 500] ++ [1000])%Z (FireworkInstance.mount 0) in
  0 <= FireworkInstance.uTime fw /\ FireworkInstance.uTime fw <= 1.
Proof.
  destruct (visible_firework_shader_inputs 0 1000 [16; 500]%Z
              (THREE.Vec3 0 0 0) (THREE.Vec3 1 0 0)) as (H & _).
  - lia.
  - reflexivity.
  - exact H.
Defined.

(** ** Clicks and launches *)

(** A user event on the scene, followed by the render of [Fireworks] with the
    new value of [fireworksActive]. *)
Definition sceneStep (e : Experience.Event) (st : Experience.t * Fireworks.t)
  : Random.Rand (Experience.t * Fireworks.t) :=
  let exp' := Experience.step (fst st) e in
  fw' <- Fireworks.render (Experience.fireworksActive exp') (snd st) ;;
  Random.ret (exp', fw').

(** X23.  Fireworks are launched on the rising edge of the trigger only: a
    click launches three new bursts exactly when it focuses a photo while the
    trigger is off.  A click that removes the focus, a click on the
    background, and a click that moves the focus while the trigger of an
    earlier click is still on launch nothing. *)
Theorem fireworks_launch_on_rising_edge :
  forall (exp : Experience.t) (fw : Fireworks.t) (e : Experience.Event)
         (rho : Random.Stream) (c : nat),
    Fireworks.active fw = Experience.fireworksActive exp ->
    let st' := fst (sceneStep e (exp, fw) rho c) in
    let focusing := match e with
                    | Experience.Click idx =>
                        negb (PhotoSystem.isFocusedAt (Experience.focusedIdx exp) idx)
                    | _ => false
                    end in
    Fireworks.active (snd st') = Experience.fireworksActive (fst st')
    /\ (focusing && negb (Experience.fireworksActive exp) = true ->
        Fireworks.idRef (snd st') = (3 + Fireworks.idRef fw)%nat
        /\ List.length (Fireworks.explosions (snd st')) = 3%nat)
    /\ (focusing && negb (Experience.fireworksActive exp) = false ->
        Fireworks.idRef (snd st') = Fireworks.idRef fw
        /\ Fireworks.explosions (snd st') = Fireworks.explosions fw).
Proof.
  intros exp fw e rho c Hsync st' focusing. subst st' focusing.
  unfold sceneStep, Random.bind. cbn [fst snd].
  destruct exp as [fidx trig]. cbn [Experience.fireworksActive Experience.focusedIdx] in *.
  destruct fw as [ex idr act pc]. cbn [Fireworks.active] in Hsync. subst act.
  destruct e as [idx | |]; cbn [Experience.step].
  - unfold Experience.handlePhotoClick. cbn [Experience.focusedIdx].
    destruct (PhotoSystem.isFocusedAt fidx idx); destruct trig; cbn;
      repeat split; try reflexivity; try discriminate.
  - destruct trig; cbn; repeat split; try reflexivity; try discriminate.
  - destruct trig; cbn; repeat split; try reflexivity; try discriminate.
Qed.

Lemma fireworks_launch_on_rising_edge_witness :
  let st' := fst (sceneStep (Experience.Click 2)
                    (Experience.init,
                     fireworksAfter [] (fun _ => 1 # 2)) (fun _ => 1 # 2) 0%nat) in
  Fireworks.idRef (snd st') = 3%nat
  /\ List.length (Fireworks.explosions (snd st')) = 3%nat.
Proof.
  destruct (fireworks_launch_on_rising_edge Experience.init
              (fireworksAfter [] (fun _ => 1 # 2)) (Experience.Click 2)
              (fun _ => 1 # 2) 0%nat) as (_ & H & _).
  - reflexivity.
  - apply H. reflexivity.
Defined.

(** ** The snow volume *)













